(** * casim: a cellular-automaton tumour growth simulator

    Shallow embedding of [casim/casim.py] and the properties of its growth
    engine, lineage ledger, lineage reconstruction and histogram builder.

    Conventions of the embedding.
    - Python integers are [Z]; loop counters and lengths are [nat].
    - Python floats are the rationals they denote ([Q]); the comparisons,
      the product and the floor the program takes of them are exact.
    - A Python exception is a value of [exn]; a computation that may raise
      returns a [result].
    - The sparse matrix [lil_matrix], the [random] module, [numpy.random],
      [numpy.min], [numpy.max] and [numpy.histogram] are libraries the
      program calls; each is modelled by a function of the same name whose
      comment states the library behaviour it follows.
    - The two pseudo-random generators of the process ([random] and
      [numpy.random]) are explicit states: a stream of raw draws and a
      position in it. *)

From Stdlib Require Import ZArith QArith Qround Lia.
From stdpp Require Import base option list gmap.

Local Open Scope Z_scope.

(** ** Exceptions and results *)

Inductive exn : Type :=
| TypeError
| ValueError
| IndexError
| KeyError.

(** A computation returns, raises, or (a [while] loop cut after a given
    number of iterations) has not finished yet. *)
Inductive result (A : Type) : Type :=
| Ok (a : A)
| Raise (e : exn)
| OutOfFuel.
Arguments Ok {A} a.
Arguments Raise {A} e.
Arguments OutOfFuel {A}.

#[global] Instance result_ret : MRet result := fun _ a => Ok a.

#[global] Instance result_bind : MBind result := fun _ _ k r =>
  match r with
  | Ok a => k a
  | Raise e => Raise e
  | OutOfFuel => OutOfFuel
  end.

Definition raises {A} (r : result A) : Prop := exists e, r = Raise e.

Definition is_ok {A} (r : result A) : bool :=
  match r with Ok _ => true | _ => false end.

(** ** Python conversions of a float *)

(** [int(x)] truncates towards zero. *)
Definition py_int (q : Q) : Z := Z.quot (Qnum q) (Z.pos (Qden q)).

(** [math.floor(x)]. *)
Definition math_floor (q : Q) : Z := Qfloor q.

(** [a < b] on floats. *)
Definition float_lt (a b : Q) : bool :=
  match Qcompare a b with Lt => true | _ => false end.

(** ** Indexing *)

(** A Python (or scipy) integer index [i] into a dimension of extent [n]:
    [-n <= i < n] is accepted and a negative index counts from the end;
    anything else raises [IndexError]. *)
Definition norm_index (n i : Z) : result Z :=
  if (i <? - n) || (n <=? i) then Raise IndexError
  else Ok (if i <? 0 then i + n else i).

(** [l[i]] on a Python list. *)
Definition py_index {A} (l : list A) (i : Z) : result A :=
  j ← norm_index (Z.of_nat (length l)) i;
  match l !! Z.to_nat j with
  | Some x => Ok x
  | None => Raise IndexError
  end.

(** ** The spatial grid: [scipy.sparse.lil_matrix((n, n), dtype=int)]

    Only the entries different from 0 are stored. Reading and writing an
    element with a pair of integers normalises each index as above. *)

Definition coord : Type := Z * Z.

Record lil_matrix : Type := {
  shape : Z;
  cells : gmap (Z * Z) Z;
}.

Definition lil_empty (n : Z) : lil_matrix := {| shape := n; cells := ∅ |}.

(** The stored position an index pair designates. *)
Definition resolve (n : Z) (c : coord) : result (Z * Z) :=
  i ← norm_index n c.1;
  j ← norm_index n c.2;
  Ok (i, j).

(** [m[c]]. *)
Definition mtx_get (m : lil_matrix) (c : coord) : result Z :=
  k ← resolve (shape m) c;
  Ok (default 0 (cells m !! k)).

(** [m[c] = v]. *)
Definition mtx_set (m : lil_matrix) (c : coord) (v : Z) : result lil_matrix :=
  k ← resolve (shape m) c;
  Ok {| shape := shape m;
        cells := if v =? 0 then delete k (cells m) else <[k := v]> (cells m) |}.

(** ** Parameters *)

Inductive multiplicity : Type := single | double.

Record CancerSimulatorParameters : Type := {
  matrix_size : Z;
  number_of_generations : nat;
  division_probability : Q;
  advantageous_division_probability : Q;
  death_probability : Q;
  fitness_advantage_death_probability : Q;
  mutation_rate : Q;
  advantageous_mutation_probability : Q;
  mutations_per_division : nat;
  time_of_advantageous_mutation : Z;
  number_of_clonal : nat;
  tumour_multiplicity : multiplicity;
}.

(** [check_set_number(value, typ, default, minimum, maximum)] on a value
    that is present and of the right type. *)
Definition check_set_number (value : Q) (minimum maximum : option Q) : result Q :=
  if match minimum with Some lo => float_lt value lo | None => false end
  then Raise ValueError
  else if match maximum with Some hi => float_lt hi value | None => false end
  then Raise ValueError
  else Ok value.

Definition probability_ok (q : Q) : bool :=
  is_ok (check_set_number q (Some 0%Q) (Some 1%Q)).

(** The bundle passes every setter of the parameter class. The integer
    fields whose minimum is 0 are [nat] here. *)
Definition validated (p : CancerSimulatorParameters) : bool :=
  (1 <=? matrix_size p)
  && (1 <=? number_of_generations p)%nat
  && probability_ok (division_probability p)
  && probability_ok (advantageous_division_probability p)
  && probability_ok (death_probability p)
  && probability_ok (fitness_advantage_death_probability p)
  && probability_ok (mutation_rate p)
  && probability_ok (advantageous_mutation_probability p)
  && (0 <=? time_of_advantageous_mutation p).

(** ** The simulator object *)

Record CancerSimulator : Type := {
  mtx : lil_matrix;
  mut_container : list (Z * Z);
  pool : list coord;
  benefitial_mutation : list Z;
  growth_plot_data : list nat;
}.

Definition set_mtx (st : CancerSimulator) (m : lil_matrix) : CancerSimulator :=
  {| mtx := m; mut_container := mut_container st; pool := pool st;
     benefitial_mutation := benefitial_mutation st;
     growth_plot_data := growth_plot_data st |}.

Definition set_mut_container (st : CancerSimulator) (mc : list (Z * Z)) : CancerSimulator :=
  {| mtx := mtx st; mut_container := mc; pool := pool st;
     benefitial_mutation := benefitial_mutation st;
     growth_plot_data := growth_plot_data st |}.

Definition set_pool (st : CancerSimulator) (l : list coord) : CancerSimulator :=
  {| mtx := mtx st; mut_container := mut_container st; pool := l;
     benefitial_mutation := benefitial_mutation st;
     growth_plot_data := growth_plot_data st |}.

Definition set_benefitial_mutation (st : CancerSimulator) (b : list Z) : CancerSimulator :=
  {| mtx := mtx st; mut_container := mut_container st; pool := pool st;
     benefitial_mutation := b;
     growth_plot_data := growth_plot_data st |}.

Definition set_growth_plot_data (st : CancerSimulator) (d : list nat) : CancerSimulator :=
  {| mtx := mtx st; mut_container := mut_container st; pool := pool st;
     benefitial_mutation := benefitial_mutation st;
     growth_plot_data := d |}.

(** [CancerSimulator.__init__]: an empty grid, no beneficial mutation. *)
Definition init (p : CancerSimulatorParameters) : CancerSimulator :=
  {| mtx := lil_empty (matrix_size p); mut_container := []; pool := [];
     benefitial_mutation := []; growth_plot_data := [] |}.

(** ** Neighbour query *)

(** The list comprehension [[y for y in neighboursList if self.__mtx[y]==0]]:
    the elements are read in order, and the first read that raises ends the
    comprehension. *)
Fixpoint free_cells (m : lil_matrix) (l : list coord) : result (list coord) :=
  match l with
  | [] => Ok []
  | y :: l' =>
      v ← mtx_get m y;
      rest ← free_cells m l';
      Ok (if v =? 0 then y :: rest else rest)
  end.

Definition neighboursList (cell : coord) : list coord :=
  [ (cell.1 - 1, cell.2 + 1);
    (cell.1    , cell.2 + 1);
    (cell.1 + 1, cell.2 + 1);
    (cell.1 - 1, cell.2    );
    (cell.1 + 1, cell.2    );
    (cell.1 - 1, cell.2 - 1);
    (cell.1    , cell.2 - 1);
    (cell.1 + 1, cell.2 - 1) ].

Definition neighbours (st : CancerSimulator) (cell : coord) : result (list coord) :=
  free_cells (mtx st) (neighboursList cell).

(** ** The two pseudo-random generators

    [random] (imported as [prng]) and [numpy.random] each own a generator
    state. A state is the stream of raw draws still to come; which stream a
    seed selects is the library's business and is a parameter below. *)

Record py_generator : Type := {
  py_draws : nat -> Z;
  py_pos : nat;
}.

Definition py_next (g : py_generator) : Z * py_generator :=
  (py_draws g (py_pos g), {| py_draws := py_draws g; py_pos := S (py_pos g) |}).

(** [prng.random()]: 53 random bits scaled into [[0, 1)]. *)
Definition prng_random (g : py_generator) : Q * py_generator :=
  let '(x, g') := py_next g in
  (Qmake (x mod 2 ^ 53) (2 ^ 53), g').

(** [_randbelow(n)] for [n > 0]: an index in [[0, n)]. *)
Definition randbelow (n : nat) (g : py_generator) : nat * py_generator :=
  let '(x, g') := py_next g in
  (Z.to_nat (x mod Z.of_nat n), g').

(** [prng.choice(seq)]: [seq[_randbelow(len(seq))]]; an empty sequence
    raises [IndexError]. *)
Definition prng_choice {A} (l : list A) (g : py_generator) : result (A * py_generator) :=
  match l with
  | [] => Raise IndexError
  | _ =>
      let '(j, g') := randbelow (length l) g in
      match l !! j with
      | Some x => Ok (x, g')
      | None => Raise IndexError
      end
  end.

Definition swap {A} (x : list A) (i j : nat) : list A :=
  match x !! i, x !! j with
  | Some a, Some b => <[j := a]> (<[i := b]> x)
  | _, _ => x
  end.

(** [shuffle(x)]:
    [for i in reversed(range(1, len(x))): j = randbelow(i + 1);
     x[i], x[j] = x[j], x[i]]. *)
Fixpoint shuffle_from {A} (i : nat) (x : list A) (g : py_generator) : list A * py_generator :=
  match i with
  | O => (x, g)
  | S i' =>
      let '(j, g') := randbelow (S i) g in
      shuffle_from i' (swap x i j) g'
  end.

Definition shuffle {A} (x : list A) (g : py_generator) : list A * py_generator :=
  shuffle_from (length x - 1) x g.

(** [prng.sample(population, k)]: [ValueError] unless [0 <= k <= n];
    otherwise [k] elements at pairwise distinct positions, chosen from a
    copy of the population from which every chosen position is
    removed by moving the last element into it:
    [j = randbelow(n - i); result[i] = pool[j]; pool[j] = pool[n - i - 1]].
    (For a large population the library rejects repeated positions instead;
    the result is of the same kind.) *)
Fixpoint sample_from {A} (k : nat) (pl : list A) (g : py_generator) : list A * py_generator :=
  match k with
  | O => ([], g)
  | S k' =>
      let n := length pl in
      let '(j, g') := randbelow n g in
      match pl !! j, pl !! (n - 1)%nat with
      | Some x, Some y =>
          let '(rest, g'') := sample_from k' (take (n - 1) (<[j := y]> pl)) g' in
          (x :: rest, g'')
      | _, _ => ([], g')
      end
  end.

Definition prng_sample {A} (population : list A) (k : Z) (g : py_generator)
  : result (list A * py_generator) :=
  if (k <? 0) || (Z.of_nat (length population) <? k) then Raise ValueError
  else Ok (sample_from (Z.to_nat k) population g).

Record np_generator : Type := {
  np_draws : nat -> nat;
  np_pos : nat;
}.

(** [np.random.poisson(lam)]: mean 0 gives 0 and uses no draw; otherwise
    the variate is the next one the generator state yields. *)
Definition np_random_poisson (lam : nat) (g : np_generator) : nat * np_generator :=
  match lam with
  | O => (O, g)
  | _ => (np_draws g (np_pos g), {| np_draws := np_draws g; np_pos := S (np_pos g) |})
  end.

(** ** Division and mutation *)

Definition member (x : Z) (l : list Z) : bool := bool_decide (x ∈ l).

(** [CancerSimulator.mutation]. The value is the updated mutation counter;
    the simulator object and the generator are threaded through. *)
Definition mutation (p : CancerSimulatorParameters)
    (cell : coord) (neighbors : list coord) (step : nat) (mutation_counter : Z)
    (pool : list coord) (place_to_divide : coord) (benefitial : bool)
    (st : CancerSimulator) (g : py_generator)
  : result (Z * CancerSimulator * py_generator) :=
  let '(u, g) := prng_random g in
  if float_lt u (mutation_rate p) then
    let mutation_counter := mutation_counter + 1 in
    (* self.__mtx[place_to_divide] = len(self.__mut_container) *)
    m ← mtx_set (mtx st) place_to_divide (Z.of_nat (length (mut_container st)));
    let st := set_mtx st m in
    (* self.__mut_container.append((self.__mut_container[self.__mtx[cell]][1], mutation_counter)) *)
    c ← mtx_get (mtx st) cell;
    e ← py_index (mut_container st) c;
    let st := set_mut_container st (mut_container st ++ [(e.2, mutation_counter)]) in
    '(st, g) ←
      (if benefitial then
         d ← mtx_get (mtx st) place_to_divide;
         Ok (set_benefitial_mutation st (benefitial_mutation st ++ [d]), g)
       else
         let '(u', g) := prng_random g in
         if float_lt u' (advantageous_mutation_probability p)
            && (length (benefitial_mutation st) =? 0)%nat
            && (Z.of_nat step =? time_of_advantageous_mutation p)
         then
           d ← mtx_get (mtx st) place_to_divide;
           Ok (set_benefitial_mutation st (benefitial_mutation st ++ [d]), g)
         else Ok (st, g));
    (* Mother cell mutates *)
    let mutation_counter := mutation_counter + 1 in
    c ← mtx_get (mtx st) cell;
    e ← py_index (mut_container st) c;
    let st := set_mut_container st (mut_container st ++ [(e.2, mutation_counter)]) in
    m ← mtx_set (mtx st) cell (Z.of_nat (length (mut_container st)) - 1);
    Ok (mutation_counter, set_mtx st m, g)
  else
    (* self.__mtx[place_to_divide] = self.__mtx[cell] *)
    c ← mtx_get (mtx st) cell;
    m ← mtx_set (mtx st) place_to_divide c;
    Ok (mutation_counter, set_mtx st m, g).

(** [CancerSimulator.division]; [pool] is the temporary pool of the
    generation, returned with the chosen place appended. *)
Definition division (p : CancerSimulatorParameters)
    (cell : coord) (benefitial : bool) (neighbors : list coord) (step : nat)
    (mutation_counter : Z) (pool : list coord)
    (st : CancerSimulator) (g : py_generator)
  : result (Z * list coord * CancerSimulator * py_generator) :=
  if benefitial then
    '(place_to_divide, g) ← prng_choice neighbors g;
    let pool := pool ++ [place_to_divide] in
    '(mutation_counter, st, g) ←
      mutation p cell neighbors step mutation_counter pool place_to_divide true st g;
    Ok (mutation_counter, pool, st, g)
  else
    '(place_to_divide, g) ← prng_choice neighbors g;
    let pool := pool ++ [place_to_divide] in
    '(mutation_counter, st, g) ←
      mutation p cell neighbors step mutation_counter pool place_to_divide false st g;
    Ok (mutation_counter, pool, st, g).

(** ** Death *)

(** [list.remove(x)]: drops the first element equal to [x]; [ValueError]
    when there is none. *)
Fixpoint list_remove (x : coord) (l : list coord) : result (list coord) :=
  match l with
  | [] => Raise ValueError
  | y :: l' =>
      if decide (y = x) then Ok l'
      else l'' ← list_remove x l'; Ok (y :: l'')
  end.

(** [CancerSimulator.terminate_cell]. *)
Definition terminate_cell (cell : coord) (step : nat) (st : CancerSimulator)
  : result CancerSimulator :=
  l ← list_remove cell (pool st);
  let st := set_pool st l in
  m ← mtx_set (mtx st) cell 0;
  Ok (set_mtx st m).

Fixpoint terminate_all (cells : list coord) (step : nat) (st : CancerSimulator)
  : result CancerSimulator :=
  match cells with
  | [] => Ok st
  | i :: rest => st' ← terminate_cell i step st; terminate_all rest step st'
  end.

(** The number of cells one death step takes:
    [math.floor(self.parameters.death_probability*len(self.__pool))]. *)
Definition death_count (p : CancerSimulatorParameters) (n : nat) : Z :=
  math_floor (death_probability p * inject_Z (Z.of_nat n))%Q.

(** [CancerSimulator.deathStep]. *)
Definition deathStep (p : CancerSimulatorParameters) (step : nat)
    (st : CancerSimulator) (g : py_generator)
  : result (CancerSimulator * py_generator) :=
  '(chosen, g) ← prng_sample (pool st) (death_count p (length (pool st))) g;
  st ← terminate_all chosen step st;
  Ok (st, g).

(** ** Histogram of mutations *)

(** What numpy makes of a (nested) Python list of integers: the array of
    its scalars in order. *)
Class ArrayLike (A : Type) : Type := ravel : A -> list Z.

#[global] Instance arraylike_int : ArrayLike Z := fun z => [z].
#[global] Instance arraylike_list {A} `{ArrayLike A} : ArrayLike (list A) :=
  fun l => concat (ravel <$> l).

(** [np.min] and [np.max]: [ValueError] on an array without elements. *)
Definition np_min `{ArrayLike A} (a : A) : result Z :=
  match ravel a with
  | [] => Raise ValueError
  | x :: l => Ok (foldl Z.min x l)
  end.

Definition np_max `{ArrayLike A} (a : A) : result Z :=
  match ravel a with
  | [] => Raise ValueError
  | x :: l => Ok (foldl Z.max x l)
  end.

(** [np.histogram(a, bins, range=(first, last))] with an integer [bins]:
    [ValueError] unless [bins >= 1] and [first <= last]; an empty range is
    widened by one half on each side; the [bins + 1] edges are equally
    spaced; every bin is half open except the last one, which also holds
    the values equal to [last]; values outside the range are not counted. *)
Definition np_histogram `{ArrayLike A} (a : A) (bins : Z) (first last : Z)
  : result (list Z * list Q) :=
  if bins <? 1 then Raise ValueError
  else if last <? first then Raise ValueError
  else
    let '(lo, hi) :=
      if first =? last
      then (inject_Z first - (1 # 2), inject_Z last + (1 # 2))%Q
      else (inject_Z first, inject_Z last) in
    let n := Z.to_nat bins in
    let bin_of (x : Z) : Z :=
      let i := Qfloor ((inject_Z x - lo) * inject_Z bins / (hi - lo))%Q in
      if i =? bins then bins - 1 else i in
    let inside (x : Z) : bool :=
      negb (float_lt (inject_Z x) lo) && negb (float_lt hi (inject_Z x)) in
    let kept := filter (fun x => inside x = true) (ravel a) in
    let hist :=
      (fun b : nat =>
         Z.of_nat (length (filter (fun x => bin_of x = Z.of_nat b) kept)))
        <$> seq 0 n in
    let edges :=
      (fun i : nat =>
         (lo + inject_Z (Z.of_nat i) * (hi - lo) / inject_Z bins)%Q)
        <$> seq 0 (n + 1) in
    Ok (hist, edges).

(** [edges[:-1]]. *)
Definition but_last {A} (l : list A) : list A := take (length l - 1) l.

(** [CancerSimulator.bulk_seq]; [step], [benefitial] and
    [sampling_or_fullTumour] are not used before the [return]. *)
Definition bulk_seq `{ArrayLike A} (DNA : list (list A)) : result (list (Z * Z)) :=
  let reduced := concat DNA in
  mn ← np_min reduced;
  mx ← np_max reduced;
  let bins := mx - mn in
  '(hist, edges) ← np_histogram reduced bins mn mx;
  Ok (zip (py_int <$> but_last edges) hist).

(** ** Lineage reconstruction *)

(** [dict([(k,v) for v,k in self.__mut_container])]: a later pair with the
    same key replaces an earlier one. *)
Definition lookup_map_of (mc : list (Z * Z)) : gmap Z Z :=
  foldl (fun d vk => <[vk.2 := vk.1]> d) ∅ mc.

(** The loop [while m>0: mut_prof.append(m); m = lookup_map[m]], cut after
    [fuel] iterations. *)
Fixpoint trace_back (fuel : nat) (lookup_map : gmap Z Z) (m : Z) (mut_prof : list Z)
  : result (list Z) :=
  if 0 <? m then
    match fuel with
    | O => OutOfFuel
    | S fuel' =>
        match lookup_map !! m with
        | Some m' => trace_back fuel' lookup_map m' (mut_prof ++ [m])
        | None => Raise KeyError
        end
    end
  else Ok mut_prof.

(** The body of the loop over the pool, for the cell at [i]. *)
Definition reconstruct_cell (fuel : nat) (st : CancerSimulator) (lookup_map : gmap Z Z)
    (i : coord) : result (list Z) :=
  cell ← mtx_get (mtx st) i;
  mc ← py_index (mut_container st) cell;
  let m := mc.2 in
  mut_prof ← trace_back fuel lookup_map m [];
  Ok (reverse mut_prof).

Fixpoint reconstruct_all (fuel : nat) (st : CancerSimulator) (lookup_map : gmap Z Z)
    (l : list coord) : result (list (list Z)) :=
  match l with
  | [] => Ok []
  | i :: l' =>
      r ← reconstruct_cell fuel st lookup_map i;
      rest ← reconstruct_all fuel st lookup_map l';
      Ok (r :: rest)
  end.

(** [CancerSimulator.mutation_reconstruction(self)]; every [while] loop
    may take up to [fuel] iterations. *)
Definition mutation_reconstruction (fuel : nat) (st : CancerSimulator)
  : result (list (list Z)) :=
  reconstruct_all fuel st (lookup_map_of (mut_container st)) (pool st).

(** ** Multiplicity scaling *)

(** [CancerSimulator.increase_mut_number]; [self.__s] is
    [mutations_per_division]. *)
Definition increase_mut_number (p : CancerSimulatorParameters)
    (solid_pre_vaf : list (Z * Z)) (np : np_generator)
  : list (Z * Q) * np_generator :=
  foldl
    (fun (acc : list (Z * Q) * np_generator) (i : Z * Z) =>
       let '(target_mut_solid, np) := acc in
       if i.1 =? 1 then
         (target_mut_solid ++ replicate (number_of_clonal p) (i.1, inject_Z i.2), np)
       else
         let '(number_of_additional_mutations, np) :=
           np_random_poisson (mutations_per_division p) np in
         (target_mut_solid
            ++ replicate number_of_additional_mutations (i.1, inject_Z i.2), np))
    ([], np) solid_pre_vaf.

(** ** The growth loop *)

(** One pass of [for cell in self.__pool] in [tumourGrowth]. *)
Definition divide_attempt (p : CancerSimulatorParameters) (step : nat)
    (acc : Z * list coord * CancerSimulator * py_generator) (cell : coord)
  : result (Z * list coord * CancerSimulator * py_generator) :=
  let '(mutation_counter, temp_pool, st, g) := acc in
  neigh ← neighbours st cell;
  match neigh with
  | [] => Ok (mutation_counter, temp_pool, st, g)
  | _ :: _ =>
      c ← mtx_get (mtx st) cell;
      if member c (benefitial_mutation st) then
        let '(u, g) := prng_random g in
        if float_lt u (advantageous_division_probability p)
        then division p cell true neigh step mutation_counter temp_pool st g
        else Ok (mutation_counter, temp_pool, st, g)
      else
        let '(u, g) := prng_random g in
        if float_lt u (division_probability p)
        then division p cell false neigh step mutation_counter temp_pool st g
        else Ok (mutation_counter, temp_pool, st, g)
  end.

Fixpoint for_each {S A} (body : S -> A -> result S) (l : list A) (s : S) : result S :=
  match l with
  | [] => Ok s
  | x :: l' => s' ← body s x; for_each body l' s'
  end.

(** The body of [for step in range(number_of_generations)] up to and
    including the second record of the population size. *)
Definition generation (p : CancerSimulatorParameters) (step : nat)
    (mutation_counter : Z) (st : CancerSimulator) (g : py_generator)
  : result (Z * CancerSimulator * py_generator) :=
  let '(shuffled, g) := shuffle (pool st) g in
  let st := set_pool st shuffled in
  '(mutation_counter, temp_pool, st, g) ←
    for_each (divide_attempt p step) (pool st) (mutation_counter, [], st, g);
  let st := set_pool st (pool st ++ temp_pool) in
  let st := set_growth_plot_data st (growth_plot_data st ++ [length (pool st)]) in
  '(st, g) ← deathStep p step st g;
  let st := set_growth_plot_data st (growth_plot_data st ++ [length (pool st)]) in
  Ok (mutation_counter, st, g).

(** Binding the arguments of a call [self.method(arguments)] to a method
    declared with [parameters] names after [self]: a different number of
    arguments raises [TypeError], and the body does not run. *)
Definition bind_arguments (parameters : nat) (arguments : list Z) : result unit :=
  if (length arguments =? parameters)%nat then Ok () else Raise TypeError.

(** [def mutation_reconstruction(self)]. *)
Definition mutation_reconstruction_parameters : nat := 0.

(** [[self.mutation_reconstruction(self.__mtx[i]) for i in self.__pool]]. *)
Fixpoint reconstruct_each (fuel : nat) (st : CancerSimulator) (l : list coord)
  : result (list (list (list Z))) :=
  match l with
  | [] => Ok []
  | i :: l' =>
      c ← mtx_get (mtx st) i;
      _ ← bind_arguments mutation_reconstruction_parameters [c];
      r ← mutation_reconstruction fuel st;
      rest ← reconstruct_each fuel st l';
      Ok (r :: rest)
  end.

(** The block under [if step == self.parameters.number_of_generations-1]. *)
Definition final_generation (fuel : nat) (p : CancerSimulatorParameters)
    (st : CancerSimulator) (np : np_generator)
  : result (list (Z * Q) * np_generator) :=
  DNA ← reconstruct_each fuel st (pool st);
  bulk_vaf ← bulk_seq DNA;
  Ok (increase_mut_number p bulk_vaf np).

Fixpoint growth_loop (fuel : nat) (p : CancerSimulatorParameters) (steps : list nat)
    (mutation_counter : Z) (st : CancerSimulator) (g : py_generator) (np : np_generator)
  : result (option (list (Z * Q)) * CancerSimulator * py_generator * np_generator) :=
  match steps with
  | [] => Ok (None, st, g, np)
  | step :: rest =>
      '(mutation_counter, st, g) ← generation p step mutation_counter st g;
      if (step =? number_of_generations p - 1)%nat then
        '(bulk_vaf, np) ← final_generation fuel p st np;
        Ok (Some bulk_vaf, st, g, np)
      else growth_loop fuel p rest mutation_counter st g np
  end.

(** [CancerSimulator.tumourGrowth], the definition that is in force (the
    second one of the class body): [mutation_counter=1] whatever the mode.
    A loop that ends without [return] gives [None]. *)
Definition tumourGrowth (fuel : nat) (p : CancerSimulatorParameters)
    (st : CancerSimulator) (g : py_generator) (np : np_generator)
  : result (option (list (Z * Q)) * CancerSimulator * py_generator * np_generator) :=
  growth_loop fuel p (seq 0 (number_of_generations p)) 1 st g np.

(** The counter the first definition of [tumourGrowth] in the class body
    starts from. *)
Definition mutation_counter_of_first_definition (m : multiplicity) : Z :=
  match m with single => 1 | double => 2 end.

(** The start of [CancerSimulator.run]: the seed cells, the ledger and the
    pool of the chosen mode. *)
Definition seed_cells (p : CancerSimulatorParameters) (st : CancerSimulator)
  : result CancerSimulator :=
  let matrix_size := inject_Z (matrix_size p) in
  match tumour_multiplicity p with
  | single =>
      let initLoc := (py_int (matrix_size * (5 # 10)), py_int (matrix_size * (5 # 10)))%Q in
      m ← mtx_set (mtx st) initLoc 1;
      Ok (set_pool (set_mut_container (set_mtx st m) [(0, 0); (0, 1)]) [initLoc])
  | double =>
      let initLoc := (py_int (matrix_size * (45 # 100)), py_int (matrix_size * (5 # 10)))%Q in
      let secondinitLoc := (py_int (matrix_size * (65 # 100)), py_int (matrix_size * (51 # 100)))%Q in
      m ← mtx_set (mtx st) initLoc 1;
      m ← mtx_set m secondinitLoc 2;
      Ok (set_pool (set_mut_container (set_mtx st m) [(0, 0); (0, 1); (0, 2)])
            [initLoc; secondinitLoc])
  end.

Section Run.

(** The stream of raw draws [prng.seed(seed)] selects. *)
Variable seed_stream : Z -> nat -> Z.

(** [prng.seed(seed)] sets the state of [random]'s generator and of no
    other. *)
Definition prng_seed (seed : Z) : py_generator :=
  {| py_draws := seed_stream seed; py_pos := O |}.

(** [CancerSimulator.run] up to the value of [true_vaf]; [np] is the state
    [numpy.random]'s generator is in when the run starts. *)
Definition run (fuel : nat) (p : CancerSimulatorParameters) (seed : Z) (np : np_generator)
  : result (option (list (Z * Q)) * CancerSimulator * py_generator * np_generator) :=
  st ← seed_cells p (init p);
  let st := set_growth_plot_data st [] in
  let g := prng_seed seed in
  tumourGrowth fuel p st g np.

End Run.


#[global] Arguments prng_random : simpl never.
#[global] Arguments randbelow : simpl never.
#[global] Arguments mtx_get : simpl never.
#[global] Arguments mtx_set : simpl never.
#[global] Arguments py_index : simpl never.

(** ** The simulator in the course of a run *)

(** The simulator after the generations [steps] of a run, without the block
    of the final generation. *)
Fixpoint generations (p : CancerSimulatorParameters) (steps : list nat)
    (mutation_counter : Z) (st : CancerSimulator) (g : py_generator)
  : result (Z * CancerSimulator * py_generator) :=
  match steps with
  | [] => Ok (mutation_counter, st, g)
  | step :: rest =>
      '(mutation_counter, st, g) ← generation p step mutation_counter st g;
      generations p rest mutation_counter st g
  end.

(** The counter, simulator and generator of a run after its first [k]
    generations, started as [run] starts it and with the counter
    [tumourGrowth] starts from. *)
Definition state_after (p : CancerSimulatorParameters) (k : nat) (g : py_generator)
  : result (Z * CancerSimulator * py_generator) :=
  st ← seed_cells p (init p);
  generations p (seq 0 k) 1 (set_growth_plot_data st []) g.

(** The simulator of a run after its first [k] generations, if the run
    gets that far. *)
Definition simulator_after (p : CancerSimulatorParameters) (k : nat) (g : py_generator)
  : option CancerSimulator :=
  match state_after p k g with
  | Ok (_, st, _) => Some st
  | _ => None
  end.

(** ** Invariants *)

(** A computation that contains no cut loop returns or raises. *)
Definition finishes {A} (r : result A) : Prop := r <> OutOfFuel.

(** The ledger is addressed by id: the entry at position [i] has own id
    [i], and its parent id is smaller (position 0 holds the root (0, 0)). *)
Definition ledger_ok (mc : list (Z * Z)) : Prop :=
  forall (i : nat) (e : Z * Z),
    mc !! i = Some e ->
    e.2 = Z.of_nat i /\ 0 <= e.1 /\ (i <> O -> e.1 < e.2).

(** Every stored clone-id is below [n]. *)
Definition grid_below (m : lil_matrix) (n : Z) : Prop :=
  forall k v, cells m !! k = Some v -> 0 <= v < n.

(** [c] designates a position of a grid of side [n]. *)
Definition on_grid (n : Z) (c : coord) : Prop := is_ok (resolve n c) = true.

(** Every coordinate of the pool designates a position of the grid. *)
Definition pool_on_grid (st : CancerSimulator) : Prop :=
  Forall (on_grid (shape (mtx st))) (pool st).

(** What holds of the simulator in both modes: every clone-id in the grid
    or in the beneficial list is a position of the ledger, and every
    coordinate of the pool designates a position of the grid. *)
Record well_formed (st : CancerSimulator) : Prop := {
  wf_ledger : (1 <= length (mut_container st))%nat;
  wf_grid : grid_below (mtx st) (Z.of_nat (length (mut_container st)));
  wf_benefitial :
    forall b, b ∈ benefitial_mutation st ->
              0 < b < Z.of_nat (length (mut_container st));
  wf_pool : pool_on_grid st;
}.

(** The simulator and the mutation counter of the growth loop agree: the
    ledger is addressed by id and the counter is its last id. *)
Record consistent (st : CancerSimulator) (mutation_counter : Z) : Prop := {
  consistent_wf : well_formed st;
  consistent_ledger : ledger_ok (mut_container st);
  consistent_counter : mutation_counter = Z.of_nat (length (mut_container st)) - 1;
}.

(** The ledger and the counter of a double-mode run: the three seeded
    entries with the counter still at 1, or a longer ledger whose entry at
    position 3 has own id 2. *)
Definition double_ledger (mc : list (Z * Z)) (mutation_counter : Z) : Prop :=
  (mc = [(0, 0); (0, 1); (0, 2)] /\ mutation_counter = 1)
  \/ (exists parent rest, mc = [(0, 0); (0, 1); (0, 2); (parent, 2)] ++ rest).

(** The accumulator of the loop over the pool: the simulator is well
    formed and the temporary pool lies on the grid. *)
Definition pass_ok (acc : Z * list coord * CancerSimulator * py_generator) : Prop :=
  well_formed acc.1.2 /\ Forall (on_grid (shape (mtx acc.1.2))) acc.1.1.2.

(** The beneficial list from one simulator to a later one of generation
    [step]: nothing is removed, and an empty list stays empty outside the
    designated generation. *)
Definition benefitial_kept (p : CancerSimulatorParameters) (step : nat)
    (st st' : CancerSimulator) : Prop :=
  benefitial_mutation st `prefix_of` benefitial_mutation st'
  /\ (benefitial_mutation st = [] ->
      Z.of_nat step <> time_of_advantageous_mutation p ->
      benefitial_mutation st' = []).

(** ** Lineages *)

(** [l] lists the ids met from [m] upwards: every id is positive and is
    followed by its parent in the ledger, and the parent of the last one
    is 0. *)
Fixpoint descends (mc : list (Z * Z)) (m : Z) (l : list Z) : Prop :=
  match l with
  | [] => m = 0
  | x :: l' => x = m /\ 0 < m /\ exists parent, (parent, m) ∈ mc /\ descends mc parent l'
  end.

(** [l] is a path of the ledger downwards from [parent]. *)
Fixpoint lineage_from (mc : list (Z * Z)) (parent : Z) (l : list Z) : Prop :=
  match l with
  | [] => True
  | x :: l' => (parent, x) ∈ mc /\ lineage_from mc x l'
  end.

(** [l] is the lineage of [leaf] in root-to-leaf order. *)
Definition root_to_leaf (mc : list (Z * Z)) (l : list Z) (leaf : Z) : Prop :=
  l <> [] /\ lineage_from mc 0 l /\ last l = Some leaf.

(** ** Concrete inputs *)

(** A generator state given by its first raw draws; the later ones are 0. *)
Definition generator_of (l : list Z) : py_generator :=
  {| py_draws := fun i => nth i l 0; py_pos := O |}.

(** All raw draws 0: [prng.random()] gives 0.0, [prng.choice] the first
    element, and [shuffle] of two elements exchanges them. *)
Definition zero_generator : py_generator := generator_of [].

(** A state of numpy's generator whose Poisson variates are all [k]. *)
Definition np_constant (k : nat) : np_generator :=
  {| np_draws := fun _ => k; np_pos := O |}.

(** The documented defaults of every field (single mode). *)
Definition default_bundle : CancerSimulatorParameters :=
  {| matrix_size := 10; number_of_generations := 2;
     division_probability := 1; advantageous_division_probability := 1;
     death_probability := 0; fitness_advantage_death_probability := 0;
     mutation_rate := 8 # 10; advantageous_mutation_probability := 1;
     mutations_per_division := 1; time_of_advantageous_mutation := 50000;
     number_of_clonal := 1; tumour_multiplicity := single |}.

(** The defaults in double mode, every division mutating. *)
Definition double_bundle : CancerSimulatorParameters :=
  {| matrix_size := 10; number_of_generations := 2;
     division_probability := 1; advantageous_division_probability := 1;
     death_probability := 0; fitness_advantage_death_probability := 0;
     mutation_rate := 1; advantageous_mutation_probability := 1;
     mutations_per_division := 1; time_of_advantageous_mutation := 50000;
     number_of_clonal := 1; tumour_multiplicity := double |}.

(** A lattice of side 3, no mutation, no death. *)
Definition small_bundle : CancerSimulatorParameters :=
  {| matrix_size := 3; number_of_generations := 2;
     division_probability := 1; advantageous_division_probability := 1;
     death_probability := 0; fitness_advantage_death_probability := 0;
     mutation_rate := 0; advantageous_mutation_probability := 1;
     mutations_per_division := 1; time_of_advantageous_mutation := 50000;
     number_of_clonal := 1; tumour_multiplicity := single |}.

(** The advantageous mutation is due in generation 0 and every division
    mutates. *)
Definition sweep_bundle : CancerSimulatorParameters :=
  {| matrix_size := 10; number_of_generations := 2;
     division_probability := 1; advantageous_division_probability := 1;
     death_probability := 0; fitness_advantage_death_probability := 0;
     mutation_rate := 1; advantageous_mutation_probability := 1;
     mutations_per_division := 1; time_of_advantageous_mutation := 0;
     number_of_clonal := 1; tumour_multiplicity := single |}.

(** As [sweep_bundle], with certain death for the advantageous cells and
    none for the others. *)
Definition advantage_death_bundle : CancerSimulatorParameters :=
  {| matrix_size := 10; number_of_generations := 2;
     division_probability := 1; advantageous_division_probability := 1;
     death_probability := 0; fitness_advantage_death_probability := 1;
     mutation_rate := 1; advantageous_mutation_probability := 1;
     mutations_per_division := 1; time_of_advantageous_mutation := 0;
     number_of_clonal := 1; tumour_multiplicity := single |}.


(** The simulator of a double-mode run with the bundle [double_bundle]
    after its first generation, all raw draws being 0: the second seed
    cell, at (6, 5), has divided first. *)
Definition double_after_first : CancerSimulator :=
  {| mtx := {| shape := 10;
               cells := {[ (6, 5) := 4; (5, 6) := 3; (4, 5) := 6; (3, 6) := 5 ]} |};
     mut_container := [(0, 0); (0, 1); (0, 2); (2, 2); (2, 3); (1, 4); (1, 5)];
     pool := [(6, 5); (4, 5); (5, 6); (3, 6)];
     benefitial_mutation := [];
     growth_plot_data := [4%nat; 4%nat] |}.

(** The simulator of a single-mode run with the bundle [sweep_bundle] (or
    [advantage_death_bundle]) after its first generation, all raw draws
    being 0: the cell at (4, 6) carries the advantageous mutation. *)
Definition sweep_after_first : CancerSimulator :=
  {| mtx := {| shape := 10; cells := {[ (5, 5) := 3; (4, 6) := 2 ]} |};
     mut_container := [(0, 0); (0, 1); (1, 2); (1, 3)];
     pool := [(5, 5); (4, 6)];
     benefitial_mutation := [2];
     growth_plot_data := [2%nat; 2%nat] |}.

(** ** Further functions of the simulator *)

(** [prng.randint(a, b)]: [a + _randbelow(b - a + 1)]; an empty range
    raises [ValueError]. *)
Definition prng_randint (a b : Z) (g : py_generator) : result (Z * py_generator) :=
  if b - a + 1 <=? 0 then Raise ValueError
  else
    let '(j, g') := randbelow (Z.to_nat (b - a + 1)) g in
    Ok (a + Z.of_nat j, g').

(** The loop [while self.__mtx[random_place_to_divide]!=0] of
    [place_to_divide], cut after [fuel] iterations. *)
Fixpoint place_to_divide_loop (fuel : nat) (p : CancerSimulatorParameters)
    (st : CancerSimulator) (random_place_to_divide : coord) (g : py_generator)
  : result (coord * py_generator) :=
  v ← mtx_get (mtx st) random_place_to_divide;
  if v =? 0 then Ok (random_place_to_divide, g)
  else
    match fuel with
    | O => OutOfFuel
    | S fuel' =>
        '(a, g) ← prng_randint 0 (matrix_size p - 1) g;
        '(b, g) ← prng_randint 0 (matrix_size p - 1) g;
        place_to_divide_loop fuel' p st (a, b) g
    end.

(** [CancerSimulator.place_to_divide]. *)
Definition place_to_divide (fuel : nat) (p : CancerSimulatorParameters)
    (st : CancerSimulator) (g : py_generator) : result (coord * py_generator) :=
  '(a, g) ← prng_randint 0 (matrix_size p - 1) g;
  '(b, g) ← prng_randint 0 (matrix_size p - 1) g;
  let random_place_to_divide := (a, b) in
  v ← mtx_get (mtx st) random_place_to_divide;
  if v =? 0 then Ok ((a, b), g)
  else place_to_divide_loop fuel p st random_place_to_divide g.

(** The stored position of a coordinate that designates one. *)
Definition key_of (n : Z) (c : coord) : Z * Z :=
  match resolve n c with
  | Ok k => k
  | _ => c
  end.

(** * Properties *)

(** ** Results *)

Lemma bind_Ok {A B} (a : A) (k : A -> result B) : (Ok a ≫= k) = k a.
Proof. reflexivity. Qed.

Lemma bind_Raise {A B} (e : exn) (k : A -> result B) : (Raise e ≫= k) = Raise e.
Proof. reflexivity. Qed.

Lemma bind_Ok_inv {A B} (r : result A) (k : A -> result B) (b : B) :
  (r ≫= k) = Ok b -> exists a, r = Ok a /\ k a = Ok b.
Proof. destruct r as [a| |]; simpl; intros H; try discriminate. eauto. Qed.

Lemma raises_bind {A B} (r : result A) (k : A -> result B) :
  raises r -> raises (r ≫= k).
Proof. intros [e ->]. exists e. reflexivity. Qed.

Lemma raises_bind_cases {A B} (r : result A) (k : A -> result B) :
  (raises r \/ exists a, r = Ok a) ->
  (forall a, r = Ok a -> raises (k a)) ->
  raises (r ≫= k).
Proof.
  intros [Hr | [a Ha]] Hk.
  - by apply raises_bind.
  - rewrite Ha. simpl. by apply Hk.
Qed.

Lemma finishes_cases {A} (r : result A) :
  finishes r -> raises r \/ exists a, r = Ok a.
Proof. destruct r as [a|e|]; intros H; [right; eauto | left; by exists e | done]. Qed.

Lemma finishes_Ok {A} (a : A) : finishes (Ok a).
Proof. done. Qed.

Lemma finishes_Raise {A} (e : exn) : finishes (@Raise A e).
Proof. done. Qed.

Lemma finishes_bind {A B} (r : result A) (k : A -> result B) :
  finishes r -> (forall a, finishes (k a)) -> finishes (r ≫= k).
Proof. destruct r as [a|e|]; simpl; intros Hr Hk; [apply Hk | done | done]. Qed.

Create HintDb fin discriminated.
#[local] Hint Resolve finishes_Ok finishes_Raise : fin.

Ltac fin_step :=
  match goal with
  | |- finishes (Ok _) => apply finishes_Ok
  | |- finishes (Raise _) => apply finishes_Raise
  | |- finishes (_ ≫= _) => apply finishes_bind
  | |- finishes (match ?x with _ => _ end) => destruct x
  | |- forall _, _ => intro
  end.

Ltac fin := repeat first [fin_step | solve [auto with fin]].

(** ** The run never returns a spectrum *)

Lemma norm_index_finishes n i : finishes (norm_index n i).
Proof. unfold norm_index. fin. Qed.
#[local] Hint Resolve norm_index_finishes : fin.

Lemma resolve_finishes n c : finishes (resolve n c).
Proof. unfold resolve. fin. Qed.
#[local] Hint Resolve resolve_finishes : fin.

Lemma mtx_get_finishes m c : finishes (mtx_get m c).
Proof. unfold mtx_get. fin. Qed.

Lemma mtx_set_finishes m c v : finishes (mtx_set m c v).
Proof. unfold mtx_set. fin. Qed.

Lemma py_index_finishes {A} (l : list A) i : finishes (py_index l i).
Proof. unfold py_index. fin. Qed.

Lemma prng_choice_finishes {A} (l : list A) g : finishes (prng_choice l g).
Proof. unfold prng_choice. fin. Qed.
#[local] Hint Resolve mtx_get_finishes mtx_set_finishes py_index_finishes
  prng_choice_finishes : fin.

Lemma free_cells_finishes m l : finishes (free_cells m l).
Proof. induction l as [|y l IH]; simpl; fin. Qed.

Lemma neighbours_finishes st cell : finishes (neighbours st cell).
Proof. apply free_cells_finishes. Qed.

Lemma mutation_finishes p cell ne step c pl place b st g :
  finishes (mutation p cell ne step c pl place b st g).
Proof. unfold mutation. fin. Qed.
#[local] Hint Resolve neighbours_finishes mutation_finishes : fin.

Lemma division_finishes p cell b ne step c pl st g :
  finishes (division p cell b ne step c pl st g).
Proof. unfold division. fin. Qed.
#[local] Hint Resolve division_finishes : fin.

Lemma divide_attempt_finishes p step acc cell : finishes (divide_attempt p step acc cell).
Proof. unfold divide_attempt. fin. Qed.

Lemma for_each_finishes {S A} (body : S -> A -> result S) l s :
  (forall s x, finishes (body s x)) -> finishes (for_each body l s).
Proof. intros Hb. revert s. induction l as [|x l IH]; intros s; simpl; fin. Qed.

Lemma list_remove_finishes x l : finishes (list_remove x l).
Proof. induction l as [|y l IH]; simpl; fin. Qed.
#[local] Hint Resolve divide_attempt_finishes list_remove_finishes : fin.

Lemma terminate_cell_finishes cell step st : finishes (terminate_cell cell step st).
Proof. unfold terminate_cell. fin. Qed.
#[local] Hint Resolve terminate_cell_finishes : fin.

Lemma terminate_all_finishes cells step st : finishes (terminate_all cells step st).
Proof. revert st. induction cells as [|i l IH]; intros st; simpl; fin. Qed.

Lemma prng_sample_finishes {A} (l : list A) k g : finishes (prng_sample l k g).
Proof. unfold prng_sample. fin. Qed.
#[local] Hint Resolve terminate_all_finishes prng_sample_finishes : fin.

Lemma deathStep_finishes p step st g : finishes (deathStep p step st g).
Proof. unfold deathStep. fin. Qed.
#[local] Hint Resolve deathStep_finishes : fin.

Lemma generation_finishes p step c st g : finishes (generation p step c st g).
Proof.
  unfold generation. fin. apply for_each_finishes. auto with fin.
Qed.

Lemma seed_cells_finishes p st : finishes (seed_cells p st).
Proof. unfold seed_cells. fin. Qed.

Lemma reconstruct_each_raises fuel st i l : raises (reconstruct_each fuel st (i :: l)).
Proof.
  simpl. apply raises_bind_cases; [apply finishes_cases, mtx_get_finishes |].
  intros c _. by exists TypeError.
Qed.

Lemma bulk_seq_empty_raises `{ArrayLike A} (DNA : list (list A)) :
  ravel (concat DNA) = [] -> bulk_seq DNA = Raise ValueError.
Proof. intros He. unfold bulk_seq, np_min. by rewrite He. Qed.

Lemma final_generation_raises fuel p st np : raises (final_generation fuel p st np).
Proof.
  unfold final_generation. destruct (pool st) as [|i l].
  - exists ValueError. reflexivity.
  - apply raises_bind, reconstruct_each_raises.
Qed.

Lemma growth_loop_raises fuel p steps c st g np :
  last steps = Some (number_of_generations p - 1)%nat ->
  raises (growth_loop fuel p steps c st g np).
Proof.
  revert c st g. induction steps as [|step rest IH]; intros c st g Hl; [done |].
  simpl. apply raises_bind_cases; [apply finishes_cases, generation_finishes |].
  intros [[c' st'] g'] _.
  destruct (Nat.eqb_spec step (number_of_generations p - 1)) as [-> | Hne].
  - apply raises_bind, final_generation_raises.
  - apply IH. destruct rest as [|s rest']; [simpl in Hl; congruence | done].
Qed.

Lemma last_seq n : (1 <= n)%nat -> last (seq 0 n) = Some (n - 1)%nat.
Proof.
  intros Hn. destruct n as [|n]; [lia |].
  rewrite seq_S, last_snoc. f_equal. lia.
Qed.

Lemma tumourGrowth_raises fuel p st g np :
  (1 <= number_of_generations p)%nat -> raises (tumourGrowth fuel p st g np).
Proof. intros HG. apply growth_loop_raises. by apply last_seq. Qed.

Lemma validated_generations p :
  validated p = true -> (1 <= number_of_generations p)%nat.
Proof.
  unfold validated. rewrite !andb_true_iff.
  intros [[[[[[[[_ HG] _] _] _] _] _] _] _]. by apply Nat.leb_le.
Qed.

(** C1. For a validated bundle the growth loop does not return a spectrum:
    on the final generation it calls [mutation_reconstruction] with the
    clone-id of a cell although the method takes no argument ([TypeError]),
    or, with no cell left, takes the minimum of nothing ([ValueError]); an
    earlier generation may raise before that. Whatever the seed, the
    generator states and the number of loop iterations allowed, [run]
    raises. *)
Theorem run_never_returns_spectrum seed_stream fuel p seed np :
  validated p = true -> raises (run seed_stream fuel p seed np).
Proof.
  intros Hv. unfold run.
  apply raises_bind_cases; [apply finishes_cases, seed_cells_finishes |].
  intros st _. apply tumourGrowth_raises. by apply validated_generations.
Qed.

Lemma run_never_returns_spectrum_witness :
  validated default_bundle = true
  /\ raises (run (fun _ _ => 0) 0 default_bundle 1 (np_constant 0)).
Proof.
  split; [reflexivity | apply run_never_returns_spectrum; reflexivity].
Defined.

(** With the default bundle the exception is the [TypeError] of the call. *)
Example run_default_bundle :
  run (fun _ _ => 0) 0 default_bundle 1 (np_constant 0) = Raise TypeError.
Proof. vm_compute. reflexivity. Qed.

(** ** The multiplicity draws are not the seeded generator's *)

(** [run] seeds [random]'s generator; the state of [numpy.random]'s
    generator is the one the process happens to be in. *)
Lemma run_seeds_random_only seed_stream fuel p seed np :
  run seed_stream fuel p seed np
  = (st ← seed_cells p (init p);
     tumourGrowth fuel p (set_growth_plot_data st [])
       {| py_draws := seed_stream seed; py_pos := 0 |} np).
Proof. reflexivity. Qed.


(** ** The histogram *)

(** C3. On [[1,2],[1,3]] the histogram has two bins, not three: the last
    bin holds both id 2 and id 3, so id 2 is reported with count 2 and id 3
    is not reported. *)
Theorem bulk_seq_merges_last_two_ids :
  bulk_seq [[1; 2]; [1; 3]] = Ok [(1, 2); (2, 2)].
Proof. vm_compute. reflexivity. Qed.

(** A single id present leaves no bin at all. *)
Example bulk_seq_single_id : bulk_seq [[1]; [1]] = Raise ValueError.
Proof. vm_compute. reflexivity. Qed.

(** C9 (as amended). Without any mutation in the input the builder raises
    the [ValueError] of the minimum of an empty array; there is no empty
    result. *)
Theorem bulk_seq_no_mutation_raises (DNA : list (list Z)) :
  concat DNA = [] -> bulk_seq DNA = Raise ValueError.
Proof. intros He. apply bulk_seq_empty_raises. by rewrite He. Qed.

Lemma bulk_seq_no_mutation_raises_witness :
  concat [[]; []] = @nil Z /\ bulk_seq [[]; []] = @Raise (list (Z * Z)) ValueError.
Proof.
  split; [reflexivity | apply (bulk_seq_no_mutation_raises [[]; []]); reflexivity].
Defined.

(** The claim as stated fails: the empty sample has no result. *)
Lemma bulk_seq_empty_sample_no_result :
  ~ exists h, bulk_seq (@nil (list Z)) = Ok h.
Proof. intros [h H]. vm_compute in H. discriminate. Qed.

(** ** Neighbours *)

Lemma resolve_inside n c :
  0 <= c.1 < n -> 0 <= c.2 < n -> resolve n c = Ok c.
Proof.
  intros H1 H2. unfold resolve, norm_index.
  destruct (Z.ltb_spec c.1 (- n)); [lia |].
  destruct (Z.leb_spec n c.1); [lia |]. simpl.
  destruct (Z.ltb_spec c.1 0); [lia |].
  destruct (Z.ltb_spec c.2 (- n)); [lia |].
  destruct (Z.leb_spec n c.2); [lia |]. simpl.
  destruct (Z.ltb_spec c.2 0); [lia |]. by destruct c.
Qed.

Lemma mtx_get_inside m c :
  0 <= c.1 < shape m -> 0 <= c.2 < shape m ->
  mtx_get m c = Ok (default 0 (cells m !! c)).
Proof. intros H1 H2. unfold mtx_get. by rewrite resolve_inside. Qed.

Lemma free_cells_inside m l :
  Forall (fun y => 0 <= y.1 < shape m /\ 0 <= y.2 < shape m) l ->
  exists fs, free_cells m l = Ok fs
             /\ forall y, y ∈ fs <-> y ∈ l /\ mtx_get m y = Ok 0.
Proof.
  induction l as [|x l IH]; intros Hl.
  - exists []. split; [done |]. intros y. split; [by intros ?%not_elem_of_nil |].
    by intros [?%not_elem_of_nil _].
  - apply Forall_cons in Hl as [[Hx1 Hx2] Hl].
    destruct (IH Hl) as (fs & Hfs & Hiff). simpl.
    rewrite (mtx_get_inside m x Hx1 Hx2), Hfs. cbn.
    eexists. split; [done |]. intros y.
    pose proof (mtx_get_inside m x Hx1 Hx2) as Hgx.
    destruct (Z.eqb_spec (default 0 (cells m !! x)) 0) as [E | E].
    + rewrite !elem_of_cons, Hiff. split.
      * intros [-> | [? ?]]; [| by auto]. split; [by left |]. by rewrite Hgx, E.
      * intros [[-> | ?] ?]; auto.
    + rewrite elem_of_cons, Hiff. split.
      * intros [? ?]. auto.
      * intros [[-> | ?] Hy]; [| done]. rewrite Hgx in Hy. by injection Hy.
Qed.

(** C8 (as amended). For a coordinate that is not on the edge of the
    lattice the neighbour query returns exactly the adjacent coordinates
    whose grid entry is 0, and all of them lie inside the lattice. *)
Theorem neighbours_of_interior_cell st cell :
  1 <= cell.1 <= shape (mtx st) - 2 ->
  1 <= cell.2 <= shape (mtx st) - 2 ->
  exists ne,
    neighbours st cell = Ok ne
    /\ (forall y, y ∈ ne <-> y ∈ neighboursList cell /\ mtx_get (mtx st) y = Ok 0)
    /\ (forall y, y ∈ ne ->
                  0 <= y.1 < shape (mtx st) /\ 0 <= y.2 < shape (mtx st)).
Proof.
  intros H1 H2. unfold neighbours.
  assert (Hin : Forall (fun y => 0 <= y.1 < shape (mtx st) /\ 0 <= y.2 < shape (mtx st))
                  (neighboursList cell)).
  { unfold neighboursList. repeat (apply Forall_cons; split; [simpl; lia |]).
    apply Forall_nil_2. }
  destruct (free_cells_inside _ _ Hin) as (fs & Hfs & Hiff).
  exists fs. split; [done |]. split; [done |].
  intros y [Hy _]%Hiff. rewrite Forall_forall in Hin. by apply Hin.
Qed.

Lemma neighbours_of_interior_cell_witness :
  1 <= (5, 5).1 <= shape (mtx sweep_after_first) - 2
  /\ 1 <= (5, 5).2 <= shape (mtx sweep_after_first) - 2
  /\ exists ne,
       neighbours sweep_after_first (5, 5) = Ok ne
       /\ (forall y, y ∈ ne <->
             y ∈ neighboursList (5, 5) /\ mtx_get (mtx sweep_after_first) y = Ok 0)
       /\ (forall y, y ∈ ne ->
             0 <= y.1 < shape (mtx sweep_after_first)
             /\ 0 <= y.2 < shape (mtx sweep_after_first)).
Proof.
  assert (H1 : 1 <= (5, 5).1 <= shape (mtx sweep_after_first) - 2) by (simpl; lia).
  assert (H2 : 1 <= (5, 5).2 <= shape (mtx sweep_after_first) - 2) by (simpl; lia).
  split; [exact H1 |]. split; [exact H2 |].
  exact (neighbours_of_interior_cell sweep_after_first (5, 5) H1 H2).
Defined.

(** On a lattice of side 3, after one generation that puts the daughter of
    the seed cell at (0, 1), the neighbour query on (0, 1) returns
    coordinates of row -1 (read from row 2 of the grid), and the next
    generation lets a cell grow into (-1, 2); the query on a cell of the
    last row raises [IndexError]. *)
Example neighbours_on_the_edge :
  exists c st g,
    state_after small_bundle 1 (generator_of [0; 3; 0]) = Ok (c, st, g)
    /\ pool st = [(1, 1); (0, 1)]
    /\ neighbours st (0, 1)
       = Ok [(-1, 2); (0, 2); (1, 2); (-1, 1); (-1, 0); (0, 0); (1, 0)]
    /\ neighbours st (2, 1) = Raise IndexError
    /\ pool <$> simulator_after small_bundle 2 (generator_of [0; 3; 0; 1])
       = Some [(1, 1); (0, 1); (0, 2); (-1, 2)].
Proof.
  eexists _, _, _. split; [vm_compute; reflexivity |].
  repeat split; vm_compute; reflexivity.
Qed.

(** The claim as stated fails: in a run on a lattice of side 3 the query
    on the live cell at (0, 1) returns the coordinate (-1, 2). *)
Lemma neighbours_leave_the_lattice :
  ~ (forall p k g st cell ne y,
       validated p = true ->
       simulator_after p k g = Some st -> cell ∈ pool st ->
       neighbours st cell = Ok ne -> y ∈ ne ->
       0 <= y.1 < matrix_size p /\ 0 <= y.2 < matrix_size p).
Proof.
  intros H.
  destruct (simulator_after small_bundle 1 (generator_of [0; 3; 0])) as [st|] eqn:E;
    [| vm_compute in E; discriminate].
  specialize (H small_bundle 1%nat (generator_of [0; 3; 0]) st (0, 1)
                [(-1, 2); (0, 2); (1, 2); (-1, 1); (-1, 0); (0, 0); (1, 0)] (-1, 2)
                eq_refl E).
  vm_compute in E. injection E as <-.
  destruct H as [[H _] _].
  - apply elem_of_cons. right. apply list_elem_of_singleton. reflexivity.
  - vm_compute. reflexivity.
  - apply elem_of_cons. by left.
  - simpl in H. lia.
Qed.

(** ** Grid and ledger lemmas *)

Ltac bind_inv H x Hx := apply bind_Ok_inv in H as (x & Hx & H).

Lemma Ok_inj {A} (a b : A) : Ok a = Ok b -> a = b.
Proof. congruence. Qed.

Lemma mtx_get_Ok m c v :
  mtx_get m c = Ok v ->
  exists k, resolve (shape m) c = Ok k /\ v = default 0 (cells m !! k).
Proof.
  unfold mtx_get. intros H. bind_inv H k Hk. apply Ok_inj in H. eauto.
Qed.

Lemma mtx_set_Ok m c v m' :
  mtx_set m c v = Ok m' ->
  exists k, resolve (shape m) c = Ok k
    /\ shape m' = shape m
    /\ cells m' = (if v =? 0 then delete k (cells m) else <[k := v]> (cells m)).
Proof.
  unfold mtx_set. intros H. bind_inv H k Hk. apply Ok_inj in H. subst m'. eauto.
Qed.

Lemma grid_below_mono m n n' : n <= n' -> grid_below m n -> grid_below m n'.
Proof. intros Hn Hm k v Hk. specialize (Hm k v Hk). lia. Qed.

Lemma mtx_get_below m n c v :
  0 < n -> grid_below m n -> mtx_get m c = Ok v -> 0 <= v < n.
Proof.
  intros Hn Hm (k & _ & ->)%mtx_get_Ok.
  destruct (cells m !! k) as [w|] eqn:E; simpl; [by eapply Hm | lia].
Qed.

Lemma mtx_set_below m n c v m' :
  grid_below m n -> 0 <= v < n -> mtx_set m c v = Ok m' -> grid_below m' n.
Proof.
  intros Hm Hv (k & _ & _ & Hc)%mtx_set_Ok k' w. rewrite Hc.
  destruct (v =? 0).
  - intros [_ H]%lookup_delete_Some. by eapply Hm.
  - intros [[_ <-] | [_ H]]%lookup_insert_Some; [done | by eapply Hm].
Qed.

Lemma mtx_set_shape m c v m' : mtx_set m c v = Ok m' -> shape m' = shape m.
Proof. by intros (k & _ & Hs & _)%mtx_set_Ok. Qed.

Lemma mtx_get_set_same m c v m' :
  v <> 0 -> mtx_set m c v = Ok m' -> mtx_get m' c = Ok v.
Proof.
  intros Hv (k & Hk & Hs & Hc)%mtx_set_Ok. unfold mtx_get.
  rewrite Hs, Hk. simpl. rewrite Hc.
  destruct (Z.eqb_spec v 0); [done |]. by rewrite lookup_insert_eq.
Qed.

Lemma mtx_get_set_other m c v m' c' k k' :
  resolve (shape m) c = Ok k -> resolve (shape m) c' = Ok k' -> k <> k' ->
  mtx_set m c v = Ok m' -> mtx_get m' c' = mtx_get m c'.
Proof.
  intros Hk Hk' Hne (k0 & Hk0 & Hs & Hc)%mtx_set_Ok. unfold mtx_get.
  rewrite Hs, Hk'. simpl. rewrite Hc. rewrite Hk in Hk0. apply Ok_inj in Hk0. subst k0.
  destruct (v =? 0); [by rewrite lookup_delete_ne | by rewrite lookup_insert_ne].
Qed.

Lemma norm_index_nonneg n i j : 0 <= i -> norm_index n i = Ok j -> j = i /\ i < n.
Proof.
  unfold norm_index. intros Hi.
  destruct ((i <? - n) || (n <=? i)) eqn:E; [done |].
  apply orb_false_iff in E as [_ E%Z.leb_gt].
  destruct (Z.ltb_spec i 0); [lia |]. intros [= <-]. done.
Qed.

Lemma py_index_Ok {A} (l : list A) i x :
  0 <= i -> py_index l i = Ok x -> l !! Z.to_nat i = Some x /\ i < Z.of_nat (length l).
Proof.
  unfold py_index. intros Hi H. bind_inv H j Hj.
  apply norm_index_nonneg in Hj as [-> Hlt]; [| done].
  destruct (l !! Z.to_nat i) eqn:E; [| done]. apply Ok_inj in H. by subst.
Qed.

Lemma py_index_in_range {A} (l : list A) i :
  0 <= i < Z.of_nat (length l) -> exists x, py_index l i = Ok x /\ l !! Z.to_nat i = Some x.
Proof.
  intros Hi. unfold py_index, norm_index.
  destruct (Z.ltb_spec i (- Z.of_nat (length l))); [lia |].
  destruct (Z.leb_spec (Z.of_nat (length l)) i); [lia |]. simpl.
  destruct (Z.ltb_spec i 0); [lia |].
  destruct (lookup_lt_is_Some_2 l (Z.to_nat i)) as [x Hx]; [lia |].
  rewrite Hx. eauto.
Qed.

Lemma ledger_ok_snoc mc parent :
  ledger_ok mc -> mc <> [] -> 0 <= parent < Z.of_nat (length mc) ->
  ledger_ok (mc ++ [(parent, Z.of_nat (length mc))]).
Proof.
  intros Hmc Hne Hp i e Hi.
  apply lookup_app_Some in Hi as [Hi | [Hlen Hi]]; [by apply Hmc |].
  destruct (i - length mc)%nat as [|k] eqn:Ek; [| by destruct k].
  simpl in Hi. injection Hi as <-. simpl.
  assert (i = length mc) as -> by lia. lia.
Qed.

(** ** What [mutation] does *)

Lemma on_grid_get m c v : mtx_get m c = Ok v -> on_grid (shape m) c.
Proof. intros (k & Hk & _)%mtx_get_Ok. unfold on_grid. by rewrite Hk. Qed.

(** One call of [mutation] either copies the clone-id of the mother to the
    daughter and leaves ledger, counter and beneficial list alone, or
    appends two entries to the ledger, whose parents are read from the
    entries of the clone-ids found at the mother, and at most the new
    position [L] to the beneficial list. *)
Lemma mutation_spec p cell ne step c pl place b st g c' st' g' :
  (1 <= length (mut_container st))%nat ->
  grid_below (mtx st) (Z.of_nat (length (mut_container st))) ->
  mutation p cell ne step c pl place b st g = Ok (c', st', g') ->
  pool st' = pool st /\ shape (mtx st') = shape (mtx st)
  /\ ((c' = c /\ mut_container st' = mut_container st
       /\ benefitial_mutation st' = benefitial_mutation st
       /\ grid_below (mtx st') (Z.of_nat (length (mut_container st))))
      \/ (exists v1 e1 v2 e2,
            0 <= v1 < Z.of_nat (length (mut_container st))
            /\ mut_container st !! Z.to_nat v1 = Some e1
            /\ 0 <= v2 < Z.of_nat (length (mut_container st)) + 1
            /\ (mut_container st ++ [(e1.2, c + 1)]) !! Z.to_nat v2 = Some e2
            /\ c' = c + 2
            /\ mut_container st' = mut_container st ++ [(e1.2, c + 1); (e2.2, c + 2)]
            /\ (benefitial_mutation st' = benefitial_mutation st
                \/ benefitial_mutation st'
                   = benefitial_mutation st ++ [Z.of_nat (length (mut_container st))])
            /\ grid_below (mtx st') (Z.of_nat (length (mut_container st)) + 2))).
Proof.
  intros HL1 Hg H. unfold mutation in H.
  destruct (prng_random g) as [u g1].
  set (L := Z.of_nat (length (mut_container st))) in *.
  assert (HL : 1 <= L) by lia.
  assert (HL0 : L <> 0) by lia.
  destruct (float_lt u (mutation_rate p)).
  - bind_inv H m1 Hm1. cbn in H.
    bind_inv H c1 Hc1. bind_inv H e1 He1.
    assert (Hg1 : grid_below m1 (L + 1)).
    { eapply mtx_set_below; [| | exact Hm1]; [eapply grid_below_mono; [| exact Hg]; lia | lia]. }
    assert (Hc1b : 0 <= c1 < L + 1) by (eapply mtx_get_below; [| exact Hg1 | exact Hc1]; lia).
    apply py_index_Ok in He1 as [He1 Hc1L]; [| lia].
    set (mc1 := mut_container st ++ [(e1.2, c + 1)]) in *.
    bind_inv H sg Hsg. destruct sg as [st2 g2].
    assert (Hst2 : mtx st2 = m1 /\ mut_container st2 = mc1 /\ pool st2 = pool st
                   /\ (benefitial_mutation st2 = benefitial_mutation st
                       \/ benefitial_mutation st2 = benefitial_mutation st ++ [L])).
    { pose proof (mtx_get_set_same _ _ _ _ HL0 Hm1) as Hd.
      destruct b.
      - bind_inv Hsg d Hd'. apply Ok_inj in Hsg. injection Hsg as <- <-.
        cbn in Hd'. rewrite Hd in Hd'. apply Ok_inj in Hd'. subst d.
        cbn. auto.
      - destruct (prng_random g1) as [u' g1'].
        destruct (_ && _ && _).
        + bind_inv Hsg d Hd'. apply Ok_inj in Hsg. injection Hsg as <- <-.
          cbn in Hd'. rewrite Hd in Hd'. apply Ok_inj in Hd'. subst d.
          cbn. auto.
        + apply Ok_inj in Hsg. injection Hsg as <- <-. cbn. auto. }
    destruct Hst2 as (Hm2 & Hmc2 & Hpool2 & Hb2).
    bind_inv H c2 Hc2. bind_inv H e2 He2. cbn in H.
    bind_inv H m3 Hm3. apply Ok_inj in H. injection H as <- <- <-.
    rewrite Hm2 in Hc2. rewrite Hmc2 in He2, Hm3. rewrite Hm2 in Hm3.
    assert (Hc2b : 0 <= c2 < L + 1) by (eapply mtx_get_below; [| exact Hg1 | exact Hc2]; lia).
    apply py_index_Ok in He2 as [He2 _]; [| lia].
    assert (Hlen3 : Z.of_nat (length (mc1 ++ [(e2.2, c + 1 + 1)])) - 1 = L + 1).
    { unfold mc1. rewrite !length_app. simpl. lia. }
    rewrite Hlen3 in Hm3.
    cbn. split; [done |].
    split; [by rewrite (mtx_set_shape _ _ _ _ Hm3), (mtx_set_shape _ _ _ _ Hm1) |].
    right. exists c1, e1, c2, e2.
    split; [lia |]. split; [done |]. split; [done |]. split; [done |].
    split; [lia |].
    split.
    { rewrite Hmc2. unfold mc1. rewrite <- app_assoc. simpl.
      do 4 f_equal. lia. }
    split; [done |].
    eapply mtx_set_below; [| | exact Hm3]; [| lia].
    eapply grid_below_mono; [| exact Hg1]. lia.
  - bind_inv H c1 Hc1. bind_inv H m1 Hm1. apply Ok_inj in H. injection H as <- <- <-.
    cbn. split; [done |]. split; [by rewrite (mtx_set_shape _ _ _ _ Hm1) |].
    left. split; [done |]. split; [done |]. split; [done |].
    eapply mtx_set_below; [exact Hg | | exact Hm1].
    eapply mtx_get_below; [| exact Hg | exact Hc1]. lia.
Qed.

(** ** The invariants under the growth loop *)

Lemma mutation_well_formed p cell ne step c pl place b st g c' st' g' :
  well_formed st ->
  mutation p cell ne step c pl place b st g = Ok (c', st', g') ->
  well_formed st'.
Proof.
  intros [HL Hg Hb Hp] H.
  destruct (mutation_spec _ _ _ _ _ _ _ _ _ _ _ _ _ HL Hg H) as (Hpool & Hshape & Hcases).
  assert (Hp' : pool_on_grid st').
  { unfold pool_on_grid. by rewrite Hpool, Hshape. }
  destruct Hcases as [(_ & Hmc & Hbm & Hg') |
                      (v1 & e1 & v2 & e2 & _ & _ & _ & _ & _ & Hmc & Hbm & Hg')].
  - split; [by rewrite Hmc | by rewrite Hmc | by rewrite Hmc, Hbm | done].
  - assert (Hlen : Z.of_nat (length (mut_container st'))
                   = Z.of_nat (length (mut_container st)) + 2).
    { rewrite Hmc, length_app. simpl. lia. }
    split; [lia | by rewrite Hlen | | done].
    intros x Hx. rewrite Hlen.
    destruct Hbm as [Hbm | Hbm]; rewrite Hbm in Hx.
    + apply Hb in Hx. lia.
    + apply elem_of_app in Hx as [Hx | ->%list_elem_of_singleton]; [| lia].
      apply Hb in Hx. lia.
Qed.

Lemma mutation_consistent p cell ne step c pl place b st g c' st' g' :
  consistent st c ->
  mutation p cell ne step c pl place b st g = Ok (c', st', g') ->
  consistent st' c'.
Proof.
  intros [Hwf Hl Hc] H.
  pose proof (mutation_well_formed _ _ _ _ _ _ _ _ _ _ _ _ _ Hwf H) as Hwf'.
  destruct Hwf as [HL Hg Hb Hp].
  destruct (mutation_spec _ _ _ _ _ _ _ _ _ _ _ _ _ HL Hg H) as (_ & _ & Hcases).
  destruct Hcases as [(-> & Hmc & _ & _) |
                      (v1 & e1 & v2 & e2 & Hv1 & He1 & Hv2 & He2 & -> & Hmc & _ & _)].
  - split; [done | by rewrite Hmc | by rewrite Hmc].
  - set (L := Z.of_nat (length (mut_container st))) in *.
    destruct (Hl _ _ He1) as (Hown1 & _ & _). rewrite Z2Nat.id in Hown1 by lia.
    assert (Hl1 : ledger_ok (mut_container st ++ [(e1.2, c + 1)])).
    { replace (c + 1) with (Z.of_nat (length (mut_container st))) by lia.
      apply ledger_ok_snoc; [done | | lia]. intros E. rewrite E in HL. simpl in HL. lia. }
    destruct (Hl1 _ _ He2) as (Hown2 & _ & _). rewrite Z2Nat.id in Hown2 by lia.
    split; [done | |].
    + rewrite Hmc.
      change (mut_container st ++ [(e1.2, c + 1); (e2.2, c + 2)])
        with (mut_container st ++ [(e1.2, c + 1)] ++ [(e2.2, c + 2)]).
      rewrite app_assoc.
      replace (c + 2)
        with (Z.of_nat (length (mut_container st ++ [(e1.2, c + 1)])))
        by (rewrite length_app; simpl; lia).
      apply ledger_ok_snoc; [done | by destruct (mut_container st) |].
      rewrite length_app. simpl. lia.
    + rewrite Hmc, length_app. simpl. lia.
Qed.

Lemma prng_choice_Ok {A} (l : list A) g x g' :
  prng_choice l g = Ok (x, g') -> x ∈ l.
Proof.
  unfold prng_choice. destruct l as [|a l]; [done |].
  destruct (randbelow (length (a :: l)) g) as [j g1].
  destruct ((a :: l) !! j) as [y|] eqn:E; [| done].
  intros [= <- <-]. by eapply list_elem_of_lookup_2.
Qed.

Lemma free_cells_spec m l fs :
  free_cells m l = Ok fs -> forall y, y ∈ fs -> y ∈ l /\ mtx_get m y = Ok 0.
Proof.
  revert fs. induction l as [|x l IH]; intros fs H y Hy; simpl in H.
  - apply Ok_inj in H. subst. by apply not_elem_of_nil in Hy.
  - bind_inv H v Hv. bind_inv H rest Hrest. apply Ok_inj in H. subst fs.
    destruct (Z.eqb_spec v 0) as [-> | Hne].
    + apply elem_of_cons in Hy as [-> | Hy].
      * split; [by left | done].
      * destruct (IH _ Hrest y Hy). split; [by right | done].
    + destruct (IH _ Hrest y Hy). split; [by right | done].
Qed.

Lemma division_pass_ok p cell b ne step c pl st g r :
  Forall (on_grid (shape (mtx st))) ne ->
  pass_ok (c, pl, st, g) ->
  division p cell b ne step c pl st g = Ok r -> pass_ok r.
Proof.
  intros Hne [Hwf Hpl] H. unfold division in H.
  assert (Hboth : exists place g1 c1 st1 g2,
             place ∈ ne
             /\ mutation p cell ne step c (pl ++ [place]) place b st g1 = Ok (c1, st1, g2)
             /\ r = (c1, pl ++ [place], st1, g2)).
  { destruct b; bind_inv H pg Hpg; destruct pg as [place g1];
      bind_inv H r1 Hr1; destruct r1 as [[c1 st1] g2]; apply Ok_inj in H;
      exists place, g1, c1, st1, g2; (split; [by eapply prng_choice_Ok | done]). }
  destruct Hboth as (place & g1 & c1 & st1 & g2 & Hin & Hm & ->).
  split; simpl.
  - by eapply mutation_well_formed.
  - destruct Hwf as [HL Hg _ _].
    destruct (mutation_spec _ _ _ _ _ _ _ _ _ _ _ _ _ HL Hg Hm) as (_ & -> & _).
    apply Forall_app. split; [done |]. apply Forall_singleton.
    rewrite Forall_forall in Hne. by apply Hne.
Qed.

Lemma neighbours_on_grid st cell ne :
  neighbours st cell = Ok ne -> Forall (on_grid (shape (mtx st))) ne.
Proof.
  intros H. apply Forall_forall. intros y Hy.
  destruct (free_cells_spec _ _ _ H y Hy) as [_ Hget]. by eapply on_grid_get.
Qed.

Lemma divide_attempt_pass_ok p step acc cell r :
  pass_ok acc -> divide_attempt p step acc cell = Ok r -> pass_ok r.
Proof.
  destruct acc as [[[c pl] st] g]. intros Hacc H. unfold divide_attempt in H.
  bind_inv H ne Hne. pose proof (neighbours_on_grid _ _ _ Hne) as Hgrid.
  destruct ne as [|n ne].
  { apply Ok_inj in H. by subst r. }
  bind_inv H v Hv.
  destruct (member v (benefitial_mutation st));
    destruct (prng_random g) as [u g1];
    (destruct (float_lt u _);
     [ by eapply division_pass_ok; [exact Hgrid | | exact H]
     | apply Ok_inj in H; by subst r ]).
Qed.

Lemma division_consistent p cell b ne step c pl st g c' pl' st' g' :
  consistent st c ->
  division p cell b ne step c pl st g = Ok (c', pl', st', g') ->
  consistent st' c'.
Proof.
  intros Hst H. unfold division in H.
  destruct b; bind_inv H pg Hpg; destruct pg as [place g1];
    bind_inv H r Hr; destruct r as [[c1 st1] g2];
    apply Ok_inj in H; injection H as <- _ <- _;
    eapply mutation_consistent; eauto.
Qed.

Lemma divide_attempt_consistent p step c pl st g cell c' pl' st' g' :
  consistent st c ->
  divide_attempt p step (c, pl, st, g) cell = Ok (c', pl', st', g') ->
  consistent st' c'.
Proof.
  intros Hst H. unfold divide_attempt in H.
  bind_inv H ne Hne. destruct ne as [|n ne].
  { apply Ok_inj in H. by injection H as <- _ <- _. }
  bind_inv H v Hv.
  destruct (member v (benefitial_mutation st));
    destruct (prng_random g) as [u g1];
    (destruct (float_lt u _);
     [ by eapply division_consistent
     | apply Ok_inj in H; by injection H as <- _ <- _ ]).
Qed.

(** A property of the accumulator kept by every pass of a loop is kept by
    the loop. *)
Lemma for_each_invariant {S A} (P : S -> Prop) (body : S -> A -> result S) l s s' :
  (forall s x s', P s -> body s x = Ok s' -> P s') ->
  P s -> for_each body l s = Ok s' -> P s'.
Proof.
  intros Hb. revert s. induction l as [|x l IH]; intros s Hs H; simpl in H.
  - apply Ok_inj in H. by subst.
  - bind_inv H s1 Hs1. eapply IH; [| exact H]. by eapply Hb.
Qed.

Lemma list_remove_Ok x l l' : list_remove x l = Ok l' -> l ≡ₚ x :: l'.
Proof.
  revert l'. induction l as [|y l IH]; intros l' H; simpl in H; [done |].
  destruct (decide (y = x)) as [-> | Hne].
  - apply Ok_inj in H. by subst.
  - bind_inv H l1 Hl1. apply Ok_inj in H. subst l'.
    rewrite (IH _ Hl1). apply perm_swap.
Qed.

(** A death leaves ledger and beneficial list alone and takes one
    coordinate from the pool. *)
Lemma terminate_cell_spec cell step st st' :
  terminate_cell cell step st = Ok st' ->
  mut_container st' = mut_container st
  /\ benefitial_mutation st' = benefitial_mutation st
  /\ pool st ≡ₚ cell :: pool st'
  /\ shape (mtx st') = shape (mtx st)
  /\ forall n, grid_below (mtx st) n -> grid_below (mtx st') n.
Proof.
  intros H. unfold terminate_cell in H.
  bind_inv H l Hrem. bind_inv H m Hm. apply Ok_inj in H. subst st'. cbn in *.
  split; [done |]. split; [done |].
  split; [by apply list_remove_Ok |].
  split; [by eapply mtx_set_shape |].
  intros n Hn k v. destruct (mtx_set_Ok _ _ _ _ Hm) as (k0 & _ & _ & ->). simpl.
  intros [_ Hk]%lookup_delete_Some. by eapply Hn.
Qed.

Lemma terminate_all_spec_Ok cells step st st' :
  terminate_all cells step st = Ok st' ->
  mut_container st' = mut_container st
  /\ benefitial_mutation st' = benefitial_mutation st
  /\ pool st ≡ₚ cells ++ pool st'
  /\ shape (mtx st') = shape (mtx st)
  /\ forall n, grid_below (mtx st) n -> grid_below (mtx st') n.
Proof.
  revert st. induction cells as [|i l IH]; intros st H; simpl in H.
  - apply Ok_inj in H. by subst.
  - bind_inv H st1 H1.
    destruct (terminate_cell_spec _ _ _ _ H1) as (Hmc & Hbm & Hp & Hs & Hg).
    destruct (IH _ H) as (Hmc' & Hbm' & Hp' & Hs' & Hg').
    split; [congruence |]. split; [congruence |].
    split; [by rewrite Hp, Hp' |]. split; [congruence | auto].
Qed.

Lemma deathStep_spec_Ok p step st g st' g' :
  deathStep p step st g = Ok (st', g') ->
  mut_container st' = mut_container st
  /\ benefitial_mutation st' = benefitial_mutation st
  /\ pool st' ⊆+ pool st
  /\ shape (mtx st') = shape (mtx st)
  /\ forall n, grid_below (mtx st) n -> grid_below (mtx st') n.
Proof.
  intros H. unfold deathStep in H.
  bind_inv H cg Hcg. destruct cg as [chosen g1].
  bind_inv H st1 H1. apply Ok_inj in H. injection H as <- _.
  destruct (terminate_all_spec_Ok _ _ _ _ H1) as (Hmc & Hbm & Hp & Hs & Hg).
  split; [done |]. split; [done |]. split; [| done].
  rewrite Hp. by apply submseteq_inserts_l.
Qed.

Lemma deathStep_well_formed p step st g st' g' :
  well_formed st -> deathStep p step st g = Ok (st', g') -> well_formed st'.
Proof.
  intros [HL Hg Hb Hp] H.
  destruct (deathStep_spec_Ok _ _ _ _ _ _ H) as (Hmc & Hbm & Hsub & Hs & Hg').
  split; [by rewrite Hmc | rewrite Hmc; auto | by rewrite Hmc, Hbm |].
  unfold pool_on_grid in *. rewrite Hs.
  apply Forall_forall. intros c Hc. rewrite Forall_forall in Hp. apply Hp.
  by eapply elem_of_submseteq.
Qed.

Lemma swap_Forall {A} (P : A -> Prop) (x : list A) i j :
  Forall P x -> Forall P (swap x i j).
Proof.
  intros H. unfold swap.
  destruct (x !! i) as [a|] eqn:Ea; [| done].
  destruct (x !! j) as [b|] eqn:Eb; [| done].
  rewrite Forall_forall in H.
  apply Forall_insert; [apply Forall_insert |].
  - by apply Forall_forall.
  - apply H. by eapply list_elem_of_lookup_2.
  - apply H. by eapply list_elem_of_lookup_2.
Qed.

Lemma shuffle_from_Forall {A} (P : A -> Prop) i (x : list A) g :
  Forall P x -> Forall P (shuffle_from i x g).1.
Proof.
  revert x g. induction i as [|i IH]; intros x g H; [done |].
  change (shuffle_from (S i) x g)
    with (let '(j, g') := randbelow (S (S i)) g in shuffle_from i (swap x (S i) j) g').
  destruct (randbelow (S (S i)) g) as [j g1]. by apply IH, swap_Forall.
Qed.

Lemma well_formed_set_growth_plot_data st d :
  well_formed st -> well_formed (set_growth_plot_data st d).
Proof. by intros []. Qed.

(** The simulator on which the death step of a generation runs: well
    formed, its pool on the grid. *)
Lemma generation_death_step p step c st g c' st' g' :
  well_formed st ->
  generation p step c st g = Ok (c', st', g') ->
  exists st_mid g_mid st_dead,
    well_formed st_mid
    /\ deathStep p step st_mid g_mid = Ok (st_dead, g')
    /\ st' = set_growth_plot_data st_dead
               (growth_plot_data st_dead ++ [length (pool st_dead)]).
Proof.
  intros Hwf H. unfold generation in H.
  pose proof (shuffle_from_Forall (on_grid (shape (mtx st)))
                (length (pool st) - 1) (pool st) g (wf_pool _ Hwf)) as Hsh.
  fold (shuffle (pool st) g) in Hsh.
  destruct (shuffle (pool st) g) as [sh g1]. simpl in Hsh.
  bind_inv H acc Hacc. destruct acc as [[[c1 tp] st1] g2].
  bind_inv H sg Hsg. destruct sg as [st2 g3].
  apply Ok_inj in H. injection H as <- <- <-.
  eexists _, _, st2. split; [| split; [exact Hsg | done]].
  apply (for_each_invariant pass_ok) in Hacc.
  - destruct Hacc as [[HL Hg Hb Hp] Htp]. simpl in *.
    apply well_formed_set_growth_plot_data.
    split; simpl; [done.. |].
    unfold pool_on_grid. simpl. apply Forall_app. split; [exact Hp | exact Htp].
  - intros s x s'. apply divide_attempt_pass_ok.
  - split; simpl; [| done]. destruct Hwf as [HL Hg Hb Hp]. by split.
Qed.

Lemma generation_well_formed p step c st g c' st' g' :
  well_formed st -> generation p step c st g = Ok (c', st', g') -> well_formed st'.
Proof.
  intros Hwf H.
  destruct (generation_death_step _ _ _ _ _ _ _ _ Hwf H)
    as (st_mid & g_mid & st_dead & Hmid & Hd & ->).
  apply well_formed_set_growth_plot_data. by eapply deathStep_well_formed.
Qed.

Lemma generation_consistent p step c st g c' st' g' :
  consistent st c -> generation p step c st g = Ok (c', st', g') -> consistent st' c'.
Proof.
  intros Hst H.
  pose proof (generation_well_formed _ _ _ _ _ _ _ _ (consistent_wf _ _ Hst) H) as Hwf'.
  destruct Hst as [[HL Hg Hb Hp] Hl Hc].
  pose proof (shuffle_from_Forall (on_grid (shape (mtx st)))
                (length (pool st) - 1) (pool st) g Hp) as Hsh.
  fold (shuffle (pool st) g) in Hsh.
  unfold generation in H.
  destruct (shuffle (pool st) g) as [sh g1]. simpl in Hsh.
  bind_inv H acc Hacc. destruct acc as [[[c1 tp] st1] g2].
  bind_inv H sg Hsg. destruct sg as [st2 g3].
  apply Ok_inj in H. injection H as <- <- _.
  destruct (deathStep_spec_Ok _ _ _ _ _ _ Hsg) as (Hmc & _).
  eapply (for_each_invariant
            (fun acc : Z * list coord * CancerSimulator * py_generator =>
               consistent acc.1.2 acc.1.1.1)) in Hacc.
  - destruct Hacc as [_ Hl' Hc']. simpl in Hl', Hc', Hmc.
    split; [done | |]; simpl; by rewrite Hmc.
  - intros [[[a b] s] g0] x [[[a' b'] s'] g0'] Hs Hx. simpl in Hs |- *.
    by eapply divide_attempt_consistent.
  - simpl. split; [| done | done]. by split.
Qed.

Lemma generations_well_formed p steps c st g c' st' g' :
  well_formed st -> generations p steps c st g = Ok (c', st', g') -> well_formed st'.
Proof.
  revert c st g. induction steps as [|s steps IH]; intros c st g Hst H; simpl in H.
  - apply Ok_inj in H. by injection H as _ <- _.
  - bind_inv H r Hr. destruct r as [[c1 st1] g1].
    eapply IH; [| exact H]. by eapply generation_well_formed.
Qed.

Lemma generations_consistent p steps c st g c' st' g' :
  consistent st c -> generations p steps c st g = Ok (c', st', g') -> consistent st' c'.
Proof.
  revert c st g. induction steps as [|s steps IH]; intros c st g Hst H; simpl in H.
  - apply Ok_inj in H. by injection H as <- <- _.
  - bind_inv H r Hr. destruct r as [[c1 st1] g1].
    eapply IH; [| exact H]. by eapply generation_consistent.
Qed.

Lemma on_grid_set m c v m' : mtx_set m c v = Ok m' -> on_grid (shape m) c.
Proof. intros (k & Hk & _)%mtx_set_Ok. unfold on_grid. by rewrite Hk. Qed.

Lemma grid_below_empty n k : grid_below (lil_empty n) k.
Proof. intros key v. simpl. by rewrite lookup_empty. Qed.

(** The simulator [run] starts from is well formed in both modes. *)
Lemma seed_cells_well_formed p st :
  seed_cells p (init p) = Ok st -> well_formed st.
Proof.
  intros H. unfold seed_cells in H. destruct (tumour_multiplicity p).
  - bind_inv H m Hm. apply Ok_inj in H. subst st.
    split; simpl; [lia | | |].
    + eapply mtx_set_below; [apply grid_below_empty | | exact Hm]. lia.
    + intros b Hb. by apply not_elem_of_nil in Hb.
    + unfold pool_on_grid. simpl. apply Forall_singleton.
      rewrite (mtx_set_shape _ _ _ _ Hm). by eapply on_grid_set.
  - bind_inv H m Hm. bind_inv H m' Hm'. apply Ok_inj in H. subst st.
    split; simpl; [lia | | |].
    + eapply mtx_set_below; [| | exact Hm']; [| lia].
      eapply mtx_set_below; [apply grid_below_empty | | exact Hm]. lia.
    + intros b Hb. by apply not_elem_of_nil in Hb.
    + unfold pool_on_grid. simpl.
      rewrite (mtx_set_shape _ _ _ _ Hm'), (mtx_set_shape _ _ _ _ Hm).
      apply Forall_cons. split; [by eapply on_grid_set |].
      apply Forall_singleton. rewrite <- (mtx_set_shape _ _ _ _ Hm).
      by eapply on_grid_set.
Qed.

(** With the counter the first definition of [tumourGrowth] starts from,
    the seeded simulator is consistent in both modes; with the counter 1
    of the definition in force it is so in single mode only. *)
Lemma seed_cells_consistent_first_definition p st :
  seed_cells p (init p) = Ok st ->
  consistent st (mutation_counter_of_first_definition (tumour_multiplicity p)).
Proof.
  intros H. split; [by eapply seed_cells_well_formed | |];
    unfold seed_cells in H; destruct (tumour_multiplicity p).
  - bind_inv H m Hm. apply Ok_inj in H. subst st.
    intros [|[|i]] e; simpl; intros [= <-]; simpl; lia.
  - bind_inv H m Hm. bind_inv H m' Hm'. apply Ok_inj in H. subst st.
    intros [|[|[|i]]] e; simpl; intros [= <-]; simpl; lia.
  - bind_inv H m Hm. apply Ok_inj in H. by subst st.
  - bind_inv H m Hm. bind_inv H m' Hm'. apply Ok_inj in H. by subst st.
Qed.

Lemma seed_cells_single_consistent p st :
  tumour_multiplicity p = single ->
  seed_cells p (init p) = Ok st -> consistent st 1.
Proof.
  intros Hs H. pose proof (seed_cells_consistent_first_definition p st H) as Hc.
  by rewrite Hs in Hc.
Qed.

Lemma consistent_set_growth_plot_data st c d :
  consistent st c -> consistent (set_growth_plot_data st d) c.
Proof. intros [[] ? ?]. by split. Qed.

(** In both modes the simulator stays well formed throughout a run. *)
Lemma well_formed_after p k g st :
  simulator_after p k g = Some st -> well_formed st.
Proof.
  unfold simulator_after.
  destruct (state_after p k g) as [[[c st1] g1] | |] eqn:H; [| done | done].
  intros [= <-]. unfold state_after in H. bind_inv H st0 H0.
  eapply generations_well_formed; [| exact H].
  apply well_formed_set_growth_plot_data. by eapply seed_cells_well_formed.
Qed.

(** In single mode the simulator stays consistent throughout a run: after
    any number of generations the ledger is addressed by id and every
    parent id is below its own id. *)
Lemma single_mode_consistent p k g c st g' :
  tumour_multiplicity p = single ->
  state_after p k g = Ok (c, st, g') -> consistent st c.
Proof.
  intros Hs H. unfold state_after in H. bind_inv H st0 H0.
  eapply generations_consistent; [| exact H].
  apply consistent_set_growth_plot_data. by eapply seed_cells_single_consistent.
Qed.

(** The grid keeps the side it was created with. *)
Lemma divide_attempt_shape p step c pl st g cell c' pl' st' g' :
  well_formed st ->
  divide_attempt p step (c, pl, st, g) cell = Ok (c', pl', st', g') ->
  shape (mtx st') = shape (mtx st).
Proof.
  intros [HL Hg _ _] H. unfold divide_attempt in H.
  bind_inv H ne Hne. destruct ne as [|n ne].
  { apply Ok_inj in H. by injection H as _ _ <- _. }
  bind_inv H v Hv.
  assert (Hdiv : forall b g1,
             division p cell b (n :: ne) step c pl st g1 = Ok (c', pl', st', g') ->
             shape (mtx st') = shape (mtx st)).
  { intros b g1 Hb. unfold division in Hb.
    destruct b; bind_inv Hb pg Hpg; destruct pg as [place g2];
      bind_inv Hb r Hr; destruct r as [[c1 st1] g3];
      apply Ok_inj in Hb; injection Hb as _ _ <- _;
      by destruct (mutation_spec _ _ _ _ _ _ _ _ _ _ _ _ _ HL Hg Hr) as (_ & ? & _). }
  destruct (member v (benefitial_mutation st));
    destruct (prng_random g) as [u g1];
    (destruct (float_lt u _);
     [ by eapply Hdiv | apply Ok_inj in H; by injection H as _ _ <- _ ]).
Qed.

Lemma generation_shape p step c st g c' st' g' :
  well_formed st ->
  generation p step c st g = Ok (c', st', g') ->
  shape (mtx st') = shape (mtx st).
Proof.
  intros Hwf H.
  pose proof (shuffle_from_Forall (on_grid (shape (mtx st)))
                (length (pool st) - 1) (pool st) g (wf_pool _ Hwf)) as Hsh.
  fold (shuffle (pool st) g) in Hsh.
  unfold generation in H.
  destruct (shuffle (pool st) g) as [sh g1]. simpl in Hsh.
  bind_inv H acc Hacc. destruct acc as [[[c1 tp] st1] g2].
  bind_inv H sg Hsg. destruct sg as [st2 g3].
  apply Ok_inj in H. injection H as _ <- _.
  destruct (deathStep_spec_Ok _ _ _ _ _ _ Hsg) as (_ & _ & _ & Hs & _).
  eapply (for_each_invariant
            (fun acc : Z * list coord * CancerSimulator * py_generator =>
               pass_ok acc /\ shape (mtx acc.1.2) = shape (mtx st)))
    in Hacc.
  - destruct Hacc as [_ Hs']. simpl in Hs', Hs |- *. by rewrite Hs.
  - intros [[[a b] s] g0] x [[[a' b'] s'] g0'] [Hs0 Hd] Hx. split.
    + by eapply divide_attempt_pass_ok.
    + simpl in Hd |- *. destruct Hs0 as [Hs0 _]. rewrite <- Hd.
      by eapply divide_attempt_shape.
  - split; [| done]. split; simpl; [| done].
    destruct Hwf as [HL Hg Hb Hp]. by split.
Qed.

Lemma shape_after p k g st :
  simulator_after p k g = Some st -> shape (mtx st) = matrix_size p.
Proof.
  unfold simulator_after.
  destruct (state_after p k g) as [[[c st1] g1] | |] eqn:H; [| done | done].
  intros [= <-]. unfold state_after in H. bind_inv H st0 H0.
  pose proof (seed_cells_well_formed _ _ H0) as Hwf0.
  assert (Hs0 : shape (mtx (set_growth_plot_data st0 [])) = matrix_size p).
  { unfold seed_cells in H0. destruct (tumour_multiplicity p).
    - bind_inv H0 m1 Hm1. apply Ok_inj in H0. subst st0. simpl.
      by rewrite (mtx_set_shape _ _ _ _ Hm1).
    - bind_inv H0 m1 Hm1. bind_inv H0 m2 Hm2. apply Ok_inj in H0. subst st0. simpl.
      by rewrite (mtx_set_shape _ _ _ _ Hm2), (mtx_set_shape _ _ _ _ Hm1). }
  apply well_formed_set_growth_plot_data with (d := []) in Hwf0.
  revert H Hwf0 Hs0. generalize (set_growth_plot_data st0 []). generalize 1.
  generalize (seq 0 k). intros steps.
  revert g. induction steps as [|s steps IH]; intros g c0 st2 H Hwf Hs; simpl in H.
  - apply Ok_inj in H. by injection H as _ <- _.
  - bind_inv H r Hr. destruct r as [[c2 st3] g2].
    eapply IH; [exact H | by eapply generation_well_formed |].
    by rewrite (generation_shape _ _ _ _ _ _ _ _ Hwf Hr).
Qed.

(** ** The ledger in double mode *)

Lemma double_after_first_reached :
  simulator_after double_bundle 1 zero_generator = Some double_after_first.
Proof. vm_compute. reflexivity. Qed.

(** C5. In double mode the growth loop starts its counter at 1 although
    the ledger already holds the ids 0, 1 and 2: the first mutation appends
    an entry with own id 2 at position 3. After one generation of a
    double-mode run the own ids read 0, 1, 2, 2, 3, 4, 5 and the entry at
    position 3 is its own parent. *)
Theorem double_mode_ledger_repeats_an_id :
  mut_container <$> simulator_after double_bundle 1 zero_generator
  = Some [(0, 0); (0, 1); (0, 2); (2, 2); (2, 3); (1, 4); (1, 5)]
  /\ ~ ledger_ok [(0, 0); (0, 1); (0, 2); (2, 2); (2, 3); (1, 4); (1, 5)].
Proof.
  split; [by rewrite double_after_first_reached |].
  intros H. destruct (H 3%nat (2, 2) eq_refl) as [Hown _]. simpl in Hown. lia.
Qed.

(** The defect does not depend on the draws: in every double-mode run the
    first mutation appends an entry with own id 2 at position 3. *)
Lemma mutation_double_ledger p cell ne step c pl place b st g c' st' g' :
  well_formed st -> double_ledger (mut_container st) c ->
  mutation p cell ne step c pl place b st g = Ok (c', st', g') ->
  double_ledger (mut_container st') c'.
Proof.
  intros [HL Hg _ _] Hd H.
  destruct (mutation_spec _ _ _ _ _ _ _ _ _ _ _ _ _ HL Hg H) as (_ & _ & Hcases).
  destruct Hcases as [(-> & -> & _ & _) |
                      (v1 & e1 & v2 & e2 & _ & _ & _ & _ & -> & -> & _ & _)]; [done |].
  right. destruct Hd as [[-> ->] | (parent & rest & ->)].
  - by exists e1.2, [(e2.2, 1 + 2)].
  - exists parent, (rest ++ [(e1.2, c + 1); (e2.2, c + 2)]). by rewrite <- app_assoc.
Qed.

Lemma divide_attempt_double_ledger p step c pl st g cell c' pl' st' g' :
  well_formed st -> double_ledger (mut_container st) c ->
  divide_attempt p step (c, pl, st, g) cell = Ok (c', pl', st', g') ->
  double_ledger (mut_container st') c'.
Proof.
  intros Hwf Hd H. unfold divide_attempt in H.
  bind_inv H ne Hne. destruct ne as [|n ne].
  { apply Ok_inj in H. by injection H as <- _ <- _. }
  bind_inv H v Hv.
  assert (Hdiv : forall b g1,
             division p cell b (n :: ne) step c pl st g1 = Ok (c', pl', st', g') ->
             double_ledger (mut_container st') c').
  { intros b g1 Hb. unfold division in Hb.
    destruct b; bind_inv Hb pg Hpg; destruct pg as [place g2];
      bind_inv Hb r Hr; destruct r as [[c1 st1] g3];
      apply Ok_inj in Hb; injection Hb as <- _ <- _;
      by eapply mutation_double_ledger. }
  destruct (member v (benefitial_mutation st));
    destruct (prng_random g) as [u g1];
    (destruct (float_lt u _);
     [ by eapply Hdiv | apply Ok_inj in H; by injection H as <- _ <- _ ]).
Qed.

Lemma generation_double_ledger p step c st g c' st' g' :
  well_formed st -> double_ledger (mut_container st) c ->
  generation p step c st g = Ok (c', st', g') ->
  double_ledger (mut_container st') c'.
Proof.
  intros Hwf Hd H.
  pose proof (shuffle_from_Forall (on_grid (shape (mtx st)))
                (length (pool st) - 1) (pool st) g (wf_pool _ Hwf)) as Hsh.
  fold (shuffle (pool st) g) in Hsh.
  unfold generation in H.
  destruct (shuffle (pool st) g) as [sh g1]. simpl in Hsh.
  bind_inv H acc Hacc. destruct acc as [[[c1 tp] st1] g2].
  bind_inv H sg Hsg. destruct sg as [st2 g3].
  apply Ok_inj in H. injection H as <- <- _.
  destruct (deathStep_spec_Ok _ _ _ _ _ _ Hsg) as (Hmc & _).
  eapply (for_each_invariant
            (fun acc : Z * list coord * CancerSimulator * py_generator =>
               pass_ok acc /\ double_ledger (mut_container acc.1.2) acc.1.1.1))
    in Hacc.
  - destruct Hacc as [_ Hd']. simpl in Hd', Hmc |- *. by rewrite Hmc.
  - intros [[[a b] s] g0] x [[[a' b'] s'] g0'] [Hs Hds] Hx. split.
    + by eapply divide_attempt_pass_ok.
    + simpl in Hds |- *. destruct Hs as [Hs _]. by eapply divide_attempt_double_ledger.
  - split; [| done]. split; simpl; [| done].
    destruct Hwf as [HL Hg Hb Hp]. by split.
Qed.

Lemma double_mode_ledger p k g c st g' :
  tumour_multiplicity p = double ->
  state_after p k g = Ok (c, st, g') -> double_ledger (mut_container st) c.
Proof.
  intros Hm H. unfold state_after in H. bind_inv H st0 H0.
  pose proof (seed_cells_well_formed _ _ H0) as Hwf0.
  assert (Hd0 : double_ledger (mut_container (set_growth_plot_data st0 [])) 1).
  { unfold seed_cells in H0. rewrite Hm in H0.
    bind_inv H0 m1 Hm1. bind_inv H0 m2 Hm2. apply Ok_inj in H0. subst st0. by left. }
  apply well_formed_set_growth_plot_data with (d := []) in Hwf0.
  revert H Hwf0 Hd0. generalize (set_growth_plot_data st0 []). generalize 1.
  generalize (seq 0 k). clear. intros steps.
  revert g. induction steps as [|s steps IH]; intros g c0 st0 H Hwf Hd; simpl in H.
  - apply Ok_inj in H. by injection H as <- <- _.
  - bind_inv H r Hr. destruct r as [[c1 st1] g1].
    eapply IH; [exact H | by eapply generation_well_formed
               | by eapply generation_double_ledger].
Qed.

(** In a double-mode run a ledger that has grown is not addressed by
    id. *)
Lemma double_mode_grown_ledger_not_ok p k g c st g' :
  tumour_multiplicity p = double ->
  state_after p k g = Ok (c, st, g') ->
  (3 < length (mut_container st))%nat ->
  ~ ledger_ok (mut_container st).
Proof.
  intros Hm H Hlen Hok.
  destruct (double_mode_ledger _ _ _ _ _ _ Hm H) as [[Hmc _] | (parent & rest & Hmc)].
  - rewrite Hmc in Hlen. simpl in Hlen. lia.
  - destruct (Hok 3%nat (parent, 2)) as [Hown _]; [by rewrite Hmc |].
    simpl in Hown. lia.
Qed.

(** ** Lineage reconstruction *)

Lemma trace_back_zero lm m acc : 0 < m -> trace_back 0 lm m acc = OutOfFuel.
Proof. intros Hm. simpl. by destruct (Z.ltb_spec 0 m); [| lia]. Qed.

Lemma trace_back_step fuel lm m m' acc :
  0 < m -> lm !! m = Some m' ->
  trace_back (S fuel) lm m acc = trace_back fuel lm m' (acc ++ [m]).
Proof. intros Hm Hl. simpl. destruct (Z.ltb_spec 0 m); [by rewrite Hl | lia]. Qed.

Lemma trace_back_done fuel lm m acc : m <= 0 -> trace_back fuel lm m acc = Ok acc.
Proof. intros Hm. destruct fuel; simpl; by destruct (Z.ltb_spec 0 m); [lia |]. Qed.

(** An id that is its own parent keeps the loop running. *)
Lemma trace_back_self_loop lm m :
  0 < m -> lm !! m = Some m -> forall fuel acc, trace_back fuel lm m acc = OutOfFuel.
Proof.
  intros Hm Hl fuel. induction fuel as [|fuel IH]; intros acc.
  - by apply trace_back_zero.
  - rewrite (trace_back_step _ _ _ m); [apply IH | done | done].
Qed.

(** C6. On the simulator a double-mode run reaches after one generation
    the reconstruction does not terminate: the cell at (6, 5) has clone-id
    4, whose ledger entry (2, 3) leads to id 3, then to id 2, and the
    reverse map sends 2 to itself. Whatever number of iterations is
    allowed, the loop has not finished. *)
Theorem reconstruction_loops_in_double_mode :
  simulator_after double_bundle 1 zero_generator = Some double_after_first
  /\ forall fuel, mutation_reconstruction fuel double_after_first = OutOfFuel.
Proof.
  split; [apply double_after_first_reached |].
  intros fuel. unfold mutation_reconstruction.
  change (pool double_after_first) with [(6, 5); (4, 5); (5, 6); (3, 6)].
  cbn [reconstruct_all].
  set (lm := lookup_map_of (mut_container double_after_first)).
  assert (H3 : lm !! 3 = Some 2) by (vm_compute; reflexivity).
  assert (H2 : lm !! 2 = Some 2) by (vm_compute; reflexivity).
  assert (Hcell : reconstruct_cell fuel double_after_first lm (6, 5) = OutOfFuel).
  { unfold reconstruct_cell.
    replace (mtx_get (mtx double_after_first) (6, 5)) with (Ok 4)
      by (vm_compute; reflexivity).
    cbn [mbind result_bind].
    replace (py_index (mut_container double_after_first) 4) with (Ok (2, 3))
      by (vm_compute; reflexivity).
    cbn [mbind result_bind snd].
    destruct fuel as [|fuel].
    - by rewrite trace_back_zero.
    - rewrite (trace_back_step _ _ _ 2) by done.
      by rewrite trace_back_self_loop. }
  by rewrite Hcell.
Qed.

(** The reverse map of a ledger addressed by id sends every id to the
    parent of its entry. *)
Lemma lookup_map_of_snoc mc x :
  lookup_map_of (mc ++ [x]) = <[x.2 := x.1]> (lookup_map_of mc).
Proof. unfold lookup_map_of. by rewrite foldl_app. Qed.

Lemma ledger_ok_app_inv mc x :
  ledger_ok (mc ++ [x]) -> ledger_ok mc /\ x.2 = Z.of_nat (length mc).
Proof.
  intros H. split.
  - intros i e Hi. apply H. by apply lookup_app_l_Some.
  - destruct (H (length mc) x) as [Hx _]; [| done].
    rewrite lookup_app_r by lia. by rewrite Nat.sub_diag.
Qed.

Lemma lookup_map_of_ledger mc i e :
  ledger_ok mc -> mc !! i = Some e -> lookup_map_of mc !! Z.of_nat i = Some e.1.
Proof.
  revert i e. induction mc as [|x mc IH] using rev_ind; intros i e Hok Hi; [done |].
  apply ledger_ok_app_inv in Hok as [Hok Hx].
  rewrite lookup_map_of_snoc.
  apply lookup_app_Some in Hi as [Hi | [Hlen Hi]].
  - rewrite lookup_insert_ne; [by apply IH |].
    apply lookup_lt_Some in Hi. lia.
  - destruct (i - length mc)%nat as [|k] eqn:Ek; [| by destruct k].
    simpl in Hi. injection Hi as <-.
    assert (i = length mc) as -> by lia. rewrite <- Hx. by rewrite lookup_insert_eq.
Qed.

(** On a ledger addressed by id the loop ends within [m] iterations and
    has then collected the ids from [m] upwards. *)
Lemma trace_back_descends mc :
  ledger_ok mc ->
  forall (n : nat) (m : Z) (acc : list Z) (fuel : nat),
    0 <= m < Z.of_nat (length mc) -> (Z.to_nat m <= n)%nat -> (n <= fuel)%nat ->
    exists l, trace_back fuel (lookup_map_of mc) m acc = Ok (acc ++ l)
              /\ descends mc m l.
Proof.
  intros Hok. induction n as [|n IH]; intros m acc fuel Hm Hn Hf.
  - assert (m = 0) as -> by lia. exists []. rewrite trace_back_done by lia.
    by rewrite app_nil_r.
  - destruct (decide (m = 0)) as [-> | Hm0].
    { exists []. rewrite trace_back_done by lia. by rewrite app_nil_r. }
    destruct fuel as [|fuel]; [lia |].
    destruct (lookup_lt_is_Some_2 mc (Z.to_nat m)) as [e He]; [lia |].
    pose proof (Hok _ _ He) as (Hown & Hp0 & Hplt).
    pose proof (lookup_map_of_ledger _ _ _ Hok He) as Hlm.
    rewrite Z2Nat.id in Hlm, Hown by lia.
    rewrite (trace_back_step _ _ _ e.1) by (done || lia).
    destruct (IH e.1 (acc ++ [m]) fuel) as (l & Hl & Hd); [lia.. |].
    exists (m :: l). split.
    + rewrite Hl. by rewrite <- app_assoc.
    + simpl. split; [done |]. split; [lia |]. exists e.1. split; [| done].
      apply list_elem_of_lookup. exists (Z.to_nat m).
      rewrite He. f_equal. destruct e as [a b]. simpl in *. by subst.
Qed.

Lemma descends_length mc m l : 0 <= m -> ledger_ok mc -> descends mc m l ->
  Z.of_nat (length l) <= m.
Proof.
  intros Hm Hok. revert m Hm. induction l as [|x l IH]; intros m Hm Hd; simpl in *.
  - lia.
  - destruct Hd as (-> & Hpos & parent & Hin & Hd).
    apply list_elem_of_lookup in Hin as [i Hi].
    destruct (Hok _ _ Hi) as (Hown & Hp0 & Hplt). simpl in *.
    assert (Hi0 : i <> O) by lia. specialize (Hplt Hi0).
    specialize (IH parent Hp0 Hd). lia.
Qed.

Lemma descends_lineage mc m l suffix :
  descends mc m l -> lineage_from mc m suffix -> lineage_from mc 0 (reverse l ++ suffix).
Proof.
  revert m suffix. induction l as [|x l IH]; intros m suffix Hd Hs; simpl in Hd.
  - by subst.
  - destruct Hd as (-> & Hpos & parent & Hin & Hd).
    rewrite reverse_cons, <- app_assoc. simpl.
    eapply IH; [exact Hd |]. by split.
Qed.

(** In a consistent simulator the reconstruction of a live cell terminates
    within as many iterations as the ledger has entries and returns its
    non-empty lineage in root-to-leaf order. *)
Lemma reconstruct_cell_consistent st c i v :
  consistent st c ->
  mtx_get (mtx st) i = Ok v -> 0 < v ->
  exists l,
    reconstruct_cell (length (mut_container st)) st
      (lookup_map_of (mut_container st)) i = Ok l
    /\ root_to_leaf (mut_container st) l v
    /\ (length l <= length (mut_container st))%nat.
Proof.
  intros [[HL Hg Hb Hp] Hl Hc] Hv Hpos. unfold reconstruct_cell. rewrite Hv. simpl.
  assert (Hvb : 0 <= v < Z.of_nat (length (mut_container st))).
  { eapply mtx_get_below; [| exact Hg | exact Hv]. lia. }
  destruct (py_index_in_range (mut_container st) v Hvb) as (e & -> & He). simpl.
  destruct (Hl _ _ He) as (Hown & _ & _). rewrite Z2Nat.id in Hown by lia.
  destruct (trace_back_descends _ Hl (length (mut_container st)) e.2 []
              (length (mut_container st))) as (l & -> & Hd); [lia.. |].
  simpl. exists (reverse l). split; [done |].
  rewrite Hown in Hd.
  destruct l as [|x l]; simpl in Hd; [lia |].
  assert (Hv0 : 0 <= v) by lia.
  pose proof (descends_length _ _ _ Hv0 Hl (Hd : descends _ v (x :: l))) as Hlen.
  destruct Hd as (-> & _ & Hd).
  split; [| rewrite length_reverse; lia].
  split; [| split].
  - intros E. apply (f_equal length) in E. rewrite length_reverse in E. done.
  - rewrite <- (app_nil_r (reverse _)).
    eapply descends_lineage; [| done]. simpl. eauto.
  - rewrite reverse_cons. by rewrite last_snoc.
Qed.

(** ** The beneficial list *)

Lemma mutation_benefitial p cell ne step c pl place b st g c' st' g' :
  mutation p cell ne step c pl place b st g = Ok (c', st', g') ->
  benefitial_mutation st `prefix_of` benefitial_mutation st'
  /\ (b = false ->
      benefitial_mutation st <> [] \/ Z.of_nat step <> time_of_advantageous_mutation p ->
      benefitial_mutation st' = benefitial_mutation st).
Proof.
  intros H. unfold mutation in H.
  destruct (prng_random g) as [u g1].
  destruct (float_lt u (mutation_rate p)).
  - bind_inv H m1 Hm1. cbn in H.
    bind_inv H c1 Hc1. bind_inv H e1 He1.
    bind_inv H sg Hsg. destruct sg as [st2 g2].
    bind_inv H c2 Hc2. bind_inv H e2 He2. cbn in H.
    bind_inv H m3 Hm3. apply Ok_inj in H. injection H as <- <- <-. simpl.
    destruct b.
    + bind_inv Hsg d Hd. apply Ok_inj in Hsg. injection Hsg as <- <-. simpl.
      split; [by apply prefix_app_r | done].
    + destruct (prng_random g1) as [u' g1'].
      destruct (float_lt u' _); simpl in Hsg.
      * destruct (Nat.eqb_spec (length (benefitial_mutation st)) 0) as [E | E];
          simpl in Hsg.
        -- destruct (Z.eqb_spec (Z.of_nat step) (time_of_advantageous_mutation p)).
           ++ bind_inv Hsg d Hd. apply Ok_inj in Hsg. injection Hsg as <- <-. simpl.
              split; [by apply prefix_app_r |].
              intros _ [Hne | Hne]; [| done].
              by destruct (benefitial_mutation st).
           ++ apply Ok_inj in Hsg. by injection Hsg as <- <-.
        -- apply Ok_inj in Hsg. by injection Hsg as <- <-.
      * apply Ok_inj in Hsg. by injection Hsg as <- <-.
  - bind_inv H c1 Hc1. bind_inv H m1 Hm1. apply Ok_inj in H. by injection H as <- <- <-.
Qed.

Lemma division_benefitial p cell b ne step c pl st g c' pl' st' g' :
  division p cell b ne step c pl st g = Ok (c', pl', st', g') ->
  benefitial_mutation st `prefix_of` benefitial_mutation st'
  /\ (b = false ->
      benefitial_mutation st <> [] \/ Z.of_nat step <> time_of_advantageous_mutation p ->
      benefitial_mutation st' = benefitial_mutation st).
Proof.
  intros H. unfold division in H.
  destruct b; bind_inv H pg Hpg; destruct pg as [place g1];
    bind_inv H r Hr; destruct r as [[c1 st1] g2];
    apply Ok_inj in H; injection H as <- _ <- _;
    by eapply mutation_benefitial.
Qed.

Lemma benefitial_kept_refl p step st st' :
  benefitial_mutation st' = benefitial_mutation st -> benefitial_kept p step st st'.
Proof. intros E. unfold benefitial_kept. by rewrite E. Qed.

Lemma benefitial_kept_trans p step st1 st2 st3 :
  benefitial_kept p step st1 st2 -> benefitial_kept p step st2 st3 ->
  benefitial_kept p step st1 st3.
Proof.
  intros [H1 H1'] [H2 H2']. split; [by etrans |].
  intros He Hs. apply H2'; [by apply H1' | done].
Qed.

Lemma divide_attempt_benefitial p step c pl st g cell c' pl' st' g' :
  divide_attempt p step (c, pl, st, g) cell = Ok (c', pl', st', g') ->
  benefitial_kept p step st st'.
Proof.
  intros H. unfold divide_attempt in H.
  bind_inv H ne Hne. destruct ne as [|n ne].
  { apply Ok_inj in H. injection H as _ _ <- _. by apply benefitial_kept_refl. }
  bind_inv H v Hv. unfold member in H.
  destruct (bool_decide_reflect (v ∈ benefitial_mutation st)) as [Hin | Hin];
    destruct (prng_random g) as [u g1];
    (destruct (float_lt u _);
     [| apply Ok_inj in H; injection H as _ _ <- _; by apply benefitial_kept_refl ]).
  - apply division_benefitial in H as [Hp _]. split; [done |].
    intros He. rewrite He in Hin. by apply not_elem_of_nil in Hin.
  - apply division_benefitial in H as [Hp Hk]. split; [done |].
    intros He Hs. rewrite Hk; auto.
Qed.

Lemma generation_benefitial p step c st g c' st' g' :
  generation p step c st g = Ok (c', st', g') -> benefitial_kept p step st st'.
Proof.
  intros H. unfold generation in H.
  destruct (shuffle (pool st) g) as [sh g1].
  bind_inv H acc Hacc. destruct acc as [[[c1 tp] st1] g2].
  bind_inv H sg Hsg. destruct sg as [st2 g3].
  apply Ok_inj in H. injection H as _ <- _.
  apply deathStep_spec_Ok in Hsg as (_ & Hsg & _). simpl in Hsg.
  eapply (for_each_invariant
            (fun acc : Z * list coord * CancerSimulator * py_generator =>
               benefitial_kept p step st acc.1.2)) in Hacc.
  - simpl in Hacc. eapply benefitial_kept_trans; [exact Hacc |].
    by apply benefitial_kept_refl.
  - intros [[[a b] s] g0] x [[[a' b'] s'] g0'] Hs Hx. simpl in Hs |- *.
    eapply benefitial_kept_trans; [exact Hs |]. by eapply divide_attempt_benefitial.
  - by apply benefitial_kept_refl.
Qed.

Lemma generations_app p s1 s2 c st g :
  generations p (s1 ++ s2) c st g
  = ('(c1, st1, g1) ← generations p s1 c st g; generations p s2 c1 st1 g1).
Proof.
  revert c st g. induction s1 as [|s s1 IH]; intros c st g; simpl; [done |].
  destruct (generation p s c st g) as [[[c1 st1] g1] | |]; simpl; [apply IH | done | done].
Qed.

Lemma generations_benefitial p steps c st g c' st' g' :
  generations p steps c st g = Ok (c', st', g') ->
  benefitial_mutation st `prefix_of` benefitial_mutation st'
  /\ (benefitial_mutation st = [] ->
      Forall (fun step => Z.of_nat step <> time_of_advantageous_mutation p) steps ->
      benefitial_mutation st' = []).
Proof.
  revert c st g. induction steps as [|s steps IH]; intros c st g H; simpl in H.
  - apply Ok_inj in H. by injection H as _ <- _.
  - bind_inv H r Hr. destruct r as [[c1 st1] g1].
    apply generation_benefitial in Hr as [Hp Hk].
    apply IH in H as [Hp' Hk']. split; [by etrans |].
    intros He [Hs Hrest]%Forall_cons. auto.
Qed.

Lemma simulator_after_Some p k g st :
  simulator_after p k g = Some st ->
  exists c g', state_after p k g = Ok (c, st, g').
Proof.
  unfold simulator_after.
  destruct (state_after p k g) as [[[c st1] g1] | |]; [| done | done].
  intros [= <-]. eauto.
Qed.

(** C4 (as amended). Throughout a run the beneficial list only grows: the
    list after [k] generations is a prefix of the list after [k + j]
    generations. It is empty as long as the generation
    [time_of_advantageous_mutation] has not run, and a list still empty
    once that generation has run stays empty. Its length is not bounded
    by 1. *)
Theorem benefitial_list_only_grows p k j g st st' :
  simulator_after p k g = Some st ->
  simulator_after p (k + j) g = Some st' ->
  benefitial_mutation st `prefix_of` benefitial_mutation st'
  /\ (Z.of_nat k <= time_of_advantageous_mutation p -> benefitial_mutation st = [])
  /\ (time_of_advantageous_mutation p < Z.of_nat k -> benefitial_mutation st = [] ->
      benefitial_mutation st' = []).
Proof.
  intros (c & g1 & H)%simulator_after_Some (c' & g1' & H')%simulator_after_Some.
  unfold state_after in H, H'.
  bind_inv H st0 H0. rewrite H0 in H'. simpl in H'.
  rewrite seq_app, generations_app, H in H'. simpl in H'.
  apply generations_benefitial in H' as [Hp He'].
  split; [done |]. split.
  - intros Hk. apply generations_benefitial in H as [_ He]. apply He.
    + unfold seed_cells in H0.
      destruct (tumour_multiplicity p).
      * bind_inv H0 m Hm. apply Ok_inj in H0. by subst st0.
      * bind_inv H0 m Hm. bind_inv H0 m' Hm'. apply Ok_inj in H0. by subst st0.
    + apply Forall_forall. intros s Hs%elem_of_seq. lia.
  - intros Hk He. apply He'; [done |].
    apply Forall_forall. intros s Hs%elem_of_seq. lia.
Qed.

Lemma benefitial_list_only_grows_witness :
  exists st st',
    simulator_after sweep_bundle 1 zero_generator = Some st
    /\ simulator_after sweep_bundle (1 + 1) zero_generator = Some st'
    /\ benefitial_mutation st `prefix_of` benefitial_mutation st'
    /\ (Z.of_nat 1 <= time_of_advantageous_mutation sweep_bundle ->
        benefitial_mutation st = [])
    /\ (time_of_advantageous_mutation sweep_bundle < Z.of_nat 1 ->
        benefitial_mutation st = [] -> benefitial_mutation st' = []).
Proof.
  eexists _, _.
  split; [vm_compute; reflexivity |].
  split; [vm_compute; reflexivity |].
  apply (benefitial_list_only_grows sweep_bundle 1 1 zero_generator);
    vm_compute; reflexivity.
Defined.

(** The claim as stated fails: in a run whose advantageous mutation is due
    in generation 0, the second generation appends the new id of the
    daughter of the advantageous cell, and the list holds two ids. *)
Lemma benefitial_list_exceeds_one :
  ~ (forall p k g st,
       validated p = true -> (k <= number_of_generations p)%nat ->
       simulator_after p k g = Some st ->
       (length (remove_dups (benefitial_mutation st)) <= 1)%nat).
Proof.
  intros H.
  specialize (H sweep_bundle 2%nat zero_generator).
  destruct (simulator_after sweep_bundle 2 zero_generator) as [st|] eqn:E;
    [| vm_compute in E; discriminate].
  specialize (H st eq_refl ltac:(simpl; lia) eq_refl).
  vm_compute in E. injection E as <-. vm_compute in H. lia.
Qed.

(** ** Division of an advantageous cell *)

Lemma randbelow_lt n g : (0 < n)%nat -> ((randbelow n g).1 < n)%nat.
Proof.
  intros Hn. unfold randbelow. destruct (py_next g) as [x g'] eqn:E. simpl.
  pose proof (Z.mod_pos_bound x (Z.of_nat n)). lia.
Qed.

Lemma prng_choice_spec {A} (l : list A) g :
  l <> [] -> exists x g', prng_choice l g = Ok (x, g') /\ x ∈ l.
Proof.
  intros Hne. unfold prng_choice. destruct l as [|a l]; [done |].
  pose proof (randbelow_lt (length (a :: l)) g ltac:(simpl; lia)) as Hj.
  destruct (randbelow (length (a :: l)) g) as [j g'].
  destruct (lookup_lt_is_Some_2 (a :: l) j Hj) as [x Hx].
  rewrite Hx. exists x, g'. split; [done |]. by eapply list_elem_of_lookup_2.
Qed.

Lemma mtx_get_keys_differ m a b va vb :
  mtx_get m a = Ok va -> mtx_get m b = Ok vb -> va <> vb ->
  exists ka kb, resolve (shape m) a = Ok ka /\ resolve (shape m) b = Ok kb /\ ka <> kb.
Proof.
  intros (ka & Ha & ->)%mtx_get_Ok (kb & Hb & ->)%mtx_get_Ok Hne.
  exists ka, kb. split; [done |]. split; [done |]. intros ->. done.
Qed.

Lemma mtx_set_resolved m c v k :
  resolve (shape m) c = Ok k -> exists m', mtx_set m c v = Ok m'.
Proof. intros Hk. unfold mtx_set. rewrite Hk. simpl. eauto. Qed.

(** C10. When the growth loop lets a cell divide whose clone-id is in the
    beneficial list and the mutation draw succeeds, the daughter receives
    the new id [L] (the length of the ledger) and the mother the new id
    [L + 1]; [L] alone is appended to the beneficial list, so the grid
    entry of the mother is no longer in the list. Both new ledger entries
    have the parent read from the entry of the mother's old id. *)
Theorem beneficial_division_marks_daughter_only p step c pl st g cell ne v :
  well_formed st ->
  neighbours st cell = Ok ne -> ne <> [] ->
  mtx_get (mtx st) cell = Ok v -> v ∈ benefitial_mutation st ->
  float_lt (prng_random g).1 (advantageous_division_probability p) = true ->
  (forall place g', prng_choice ne (prng_random g).2 = Ok (place, g') ->
     float_lt (prng_random g').1 (mutation_rate p) = true) ->
  exists place e st' g',
    divide_attempt p step (c, pl, st, g) cell = Ok (c + 2, pl ++ [place], st', g')
    /\ place ∈ ne
    /\ mut_container st !! Z.to_nat v = Some e
    /\ mut_container st' = mut_container st ++ [(e.2, c + 1); (e.2, c + 2)]
    /\ mtx_get (mtx st') place = Ok (Z.of_nat (length (mut_container st)))
    /\ mtx_get (mtx st') cell = Ok (Z.of_nat (length (mut_container st)) + 1)
    /\ benefitial_mutation st'
       = benefitial_mutation st ++ [Z.of_nat (length (mut_container st))]
    /\ Z.of_nat (length (mut_container st)) + 1 ∉ benefitial_mutation st'.
Proof.
  intros [HL1 Hg Hb Hp] Hne Hnil Hv Hin Hdiv Hmut.
  set (L := Z.of_nat (length (mut_container st))) in *.
  assert (HL0 : L <> 0) by lia.
  pose proof (Hb _ Hin) as Hvb.
  destruct (prng_choice_spec ne (prng_random g).2 Hnil) as (place & g2 & Hch & Hpl).
  specialize (Hmut _ _ Hch).
  pose proof Hne as Hfree. unfold neighbours in Hfree.
  destruct (free_cells_spec _ _ _ Hfree place Hpl) as [_ Hp0].
  destruct (mtx_get_keys_differ _ _ _ _ _ Hp0 Hv) as (kp & kc & Hkp & Hkc & Hk);
    [lia |].
  destruct (mtx_set_resolved (mtx st) place L kp Hkp) as [m1 Hm1].
  pose proof (mtx_get_set_other _ _ _ _ _ _ _ Hkp Hkc Hk Hm1) as Hc1.
  rewrite Hv in Hc1.
  pose proof (mtx_get_set_same _ _ _ _ HL0 Hm1) as Hd.
  destruct (py_index_in_range (mut_container st) v) as (e & He & Hev); [lia |].
  set (mc1 := mut_container st ++ [(e.2, c + 1)]).
  destruct (py_index_in_range mc1 v) as (e' & He' & Hev').
  { unfold mc1. rewrite length_app. simpl. lia. }
  assert (e' = e) as ->.
  { unfold mc1 in Hev'. rewrite lookup_app_l in Hev' by (apply lookup_lt_Some in Hev; lia).
    congruence. }
  assert (Hkc1 : resolve (shape m1) cell = Ok kc)
    by (by rewrite (mtx_set_shape _ _ _ _ Hm1)).
  assert (Hkp1 : resolve (shape m1) place = Ok kp)
    by (by rewrite (mtx_set_shape _ _ _ _ Hm1)).
  destruct (mtx_set_resolved m1 cell (Z.of_nat (length (mc1 ++ [(e.2, c + 1 + 1)])) - 1)
              kc Hkc1) as [m3 Hm3].
  assert (Hlen3 : Z.of_nat (length (mc1 ++ [(e.2, c + 1 + 1)])) - 1 = L + 1).
  { unfold mc1. rewrite !length_app. simpl. lia. }
  exists place, e,
    (set_mtx
       (set_mut_container
          (set_benefitial_mutation (set_mut_container (set_mtx st m1) mc1)
             (benefitial_mutation st ++ [L]))
          (mc1 ++ [(e.2, c + 1 + 1)])) m3),
    (prng_random g2).2.
  split.
  - unfold divide_attempt. rewrite Hne. cbn.
    destruct ne as [|n0 ne0]; [done |].
    rewrite Hv. cbn. unfold member.
    rewrite bool_decide_eq_true_2 by done.
    destruct (prng_random g) as [u g1]. cbn in Hdiv, Hch. rewrite Hdiv.
    unfold division. rewrite Hch. cbn.
    unfold mutation.
    destruct (prng_random g2) as [u3 g3]. cbn in Hmut. rewrite Hmut.
    fold L. rewrite Hm1. cbn. rewrite Hc1. cbn. rewrite He. cbn.
    fold mc1. rewrite Hd. cbn. rewrite Hc1. cbn. rewrite He'. cbn.
    rewrite Hm3. cbn. do 4 f_equal. lia.
  - split; [done |]. split; [done |]. simpl.
    split.
    { unfold mc1. rewrite <- app_assoc. simpl. do 4 f_equal. lia. }
    split.
    { rewrite (mtx_get_set_other _ _ _ _ _ _ _ Hkc1 Hkp1 (not_eq_sym Hk) Hm3). done. }
    split.
    { rewrite Hlen3 in Hm3. eapply mtx_get_set_same; [| exact Hm3]. lia. }
    split; [done |].
    intros [Hx | Hx%list_elem_of_singleton]%elem_of_app; [| lia].
    apply Hb in Hx. lia.
Qed.

Lemma sweep_after_first_reached :
  state_after sweep_bundle 1 zero_generator
  = Ok (3, sweep_after_first, {| py_draws := py_draws zero_generator; py_pos := 4 |}).
Proof. vm_compute. reflexivity. Qed.

Lemma beneficial_division_marks_daughter_only_witness :
  exists place e st' g',
    divide_attempt sweep_bundle 1 (3, [], sweep_after_first, zero_generator) (4, 6)
    = Ok (3 + 2, [] ++ [place], st', g')
    /\ place ∈ [(3, 7); (4, 7); (5, 7); (3, 6); (5, 6); (3, 5); (4, 5)]
    /\ mut_container sweep_after_first !! Z.to_nat 2 = Some e
    /\ mut_container st'
       = mut_container sweep_after_first ++ [(e.2, 3 + 1); (e.2, 3 + 2)]
    /\ mtx_get (mtx st') place
       = Ok (Z.of_nat (length (mut_container sweep_after_first)))
    /\ mtx_get (mtx st') (4, 6)
       = Ok (Z.of_nat (length (mut_container sweep_after_first)) + 1)
    /\ benefitial_mutation st'
       = benefitial_mutation sweep_after_first
           ++ [Z.of_nat (length (mut_container sweep_after_first))]
    /\ Z.of_nat (length (mut_container sweep_after_first)) + 1
       ∉ benefitial_mutation st'.
Proof.
  apply (beneficial_division_marks_daughter_only sweep_bundle 1 3 []
           sweep_after_first zero_generator (4, 6)
           [(3, 7); (4, 7); (5, 7); (3, 6); (5, 6); (3, 5); (4, 5)] 2).
  - apply (well_formed_after sweep_bundle 1 zero_generator). vm_compute. reflexivity.
  - vm_compute. reflexivity.
  - discriminate.
  - vm_compute. reflexivity.
  - simpl. apply list_elem_of_singleton. reflexivity.
  - vm_compute. reflexivity.
  - intros place g' H. vm_compute in H. injection H as <- <-. vm_compute. reflexivity.
Defined.

(** In a double-mode run as well: the division of an advantageous cell,
    were there one, obeys the same rule, since the simulator is well formed
    throughout (lemma [well_formed_after]). *)
Example beneficial_division_sweep :
  (fun st => (benefitial_mutation st, default 0 (cells (mtx st) !! (4, 6))))
    <$> simulator_after sweep_bundle 2 zero_generator
  = Some ([2; 4], 5).
Proof. vm_compute. reflexivity. Qed.

(** ** The death step *)

Lemma float_lt_false a b : float_lt a b = false -> (b <= a)%Q.
Proof.
  unfold float_lt. destruct (Qcompare a b) eqn:E; [| done |]; intros _.
  - apply Qeq_alt in E. apply Qle_lteq. right. by symmetry.
  - apply Qgt_alt in E. by apply Qlt_le_weak.
Qed.



Lemma insert_swap_perm {A} (l : list A) j x y :
  l !! j = Some x -> x :: <[j := y]> l ≡ₚ y :: l.
Proof.
  revert j. induction l as [|a l IH]; intros [|j] Hj; simpl in *; try done.
  - injection Hj as ->. apply perm_swap.
  - rewrite perm_swap. rewrite (IH _ Hj). apply perm_swap.
Qed.

Lemma sample_step_perm {A} (pl : list A) j x y :
  pl !! j = Some x -> pl !! (length pl - 1)%nat = Some y ->
  x :: take (length pl - 1) (<[j := y]> pl) ≡ₚ pl.
Proof.
  destruct pl as [|y' init _] using rev_ind; [done |].
  rewrite length_app. simpl. replace (length init + 1 - 1)%nat with (length init) by lia.
  intros Hj Hy.
  rewrite lookup_app_r, Nat.sub_diag in Hy by lia. injection Hy as ->.
  destruct (decide (j < length init)%nat) as [Hlt | Hge].
  - rewrite lookup_app_l in Hj by done.
    rewrite insert_app_l by done.
    rewrite take_app_length' by (by rewrite length_insert).
    rewrite (insert_swap_perm _ _ _ _ Hj). apply Permutation_cons_append.
  - assert (j = length init) as ->.
    { apply lookup_lt_Some in Hj. rewrite length_app in Hj. simpl in Hj. lia. }
    rewrite lookup_app_r, Nat.sub_diag in Hj by lia. injection Hj as ->.
    rewrite insert_app_r_alt, Nat.sub_diag by lia. simpl.
    rewrite take_app_length. apply Permutation_cons_append.
Qed.

(** The sample holds [k] elements taken from pairwise distinct positions
    of the population. *)
Lemma sample_from_spec {A} k (pl : list A) g :
  (k <= length pl)%nat ->
  length (sample_from k pl g).1 = k /\ (sample_from k pl g).1 ⊆+ pl.
Proof.
  revert pl g. induction k as [|k IH]; intros pl g Hk.
  - split; [done | apply submseteq_nil_l].
  - change (sample_from (S k) pl g) with
      (let '(j, g') := randbelow (length pl) g in
       match pl !! j, pl !! (length pl - 1)%nat with
       | Some x, Some y =>
           let '(rest, g'') :=
             sample_from k (take (length pl - 1) (<[j := y]> pl)) g' in
           (x :: rest, g'')
       | _, _ => ([], g')
       end).
    pose proof (randbelow_lt (length pl) g ltac:(lia)) as Hj.
    destruct (randbelow (length pl) g) as [j g1]. simpl in Hj.
    destruct (lookup_lt_is_Some_2 pl j Hj) as [x Hx].
    destruct (lookup_lt_is_Some_2 pl (length pl - 1)) as [y Hy]; [lia |].
    rewrite Hx, Hy.
    specialize (IH (take (length pl - 1) (<[j := y]> pl)) g1).
    destruct (sample_from k _ g1) as [rest g2]. simpl in *.
    destruct IH as [Hlen Hsub].
    { rewrite length_take, length_insert. lia. }
    split; [by rewrite Hlen |].
    rewrite <- (sample_step_perm pl j x y Hx Hy). by apply submseteq_skip.
Qed.

Lemma list_remove_spec x l :
  x ∈ l -> exists l', list_remove x l = Ok l' /\ l ≡ₚ x :: l'.
Proof.
  induction l as [|y l IH]; intros Hx; [by apply not_elem_of_nil in Hx |].
  simpl. destruct (decide (y = x)) as [-> | Hne]; [by eexists |].
  apply elem_of_cons in Hx as [-> | Hx]; [done |].
  destruct (IH Hx) as (l' & -> & Hp). simpl. eexists. split; [done |].
  rewrite Hp. apply perm_swap.
Qed.




Example advantage_death_after_first :
  simulator_after advantage_death_bundle 1 zero_generator = Some sweep_after_first.
Proof. vm_compute. reflexivity. Qed.


(** * Further properties of the code *)

(** ** Reading and writing the grid *)

Lemma norm_index_Raise n i e : norm_index n i = Raise e -> e = IndexError.
Proof. unfold norm_index. destruct (_ || _); [by intros [= <-] | done]. Qed.

Lemma resolve_cases n c :
  resolve n c = Raise IndexError \/ exists k, resolve n c = Ok k.
Proof.
  unfold resolve.
  destruct (norm_index n c.1) as [i|e|] eqn:E1; simpl.
  - destruct (norm_index n c.2) as [j|e|] eqn:E2; simpl.
    + right. eauto.
    + left. by rewrite (norm_index_Raise _ _ _ E2).
    + by destruct (norm_index_finishes n c.2).
  - left. by rewrite (norm_index_Raise _ _ _ E1).
  - by destruct (norm_index_finishes n c.1).
Qed.

Lemma mtx_get_cases m c :
  mtx_get m c = Raise IndexError \/ exists v, mtx_get m c = Ok v.
Proof.
  unfold mtx_get. destruct (resolve_cases (shape m) c) as [-> | [k ->]]; simpl; eauto.
Qed.

Lemma mtx_get_out_of_range m c :
  shape m <= c.1 \/ shape m <= c.2 -> mtx_get m c = Raise IndexError.
Proof.
  intros H. unfold mtx_get, resolve.
  destruct (norm_index (shape m) c.1) as [i|e|] eqn:E1; simpl.
  - destruct (norm_index (shape m) c.2) as [j|e|] eqn:E2; simpl.
    + exfalso. unfold norm_index in E1, E2.
      destruct ((c.1 <? - shape m) || (shape m <=? c.1)) eqn:B1; [done |].
      destruct ((c.2 <? - shape m) || (shape m <=? c.2)) eqn:B2; [done |].
      apply orb_false_iff in B1 as [_ B1%Z.leb_gt].
      apply orb_false_iff in B2 as [_ B2%Z.leb_gt]. lia.
    + by rewrite (norm_index_Raise _ _ _ E2).
    + by destruct (norm_index_finishes (shape m) c.2).
  - by rewrite (norm_index_Raise _ _ _ E1).
  - by destruct (norm_index_finishes (shape m) c.1).
Qed.

Lemma free_cells_raise m l y :
  y ∈ l -> mtx_get m y = Raise IndexError -> free_cells m l = Raise IndexError.
Proof.
  induction l as [|x l IH]; intros Hy Hr; [by apply not_elem_of_nil in Hy |].
  simpl. destruct (mtx_get_cases m x) as [-> | [v Hv]]; [done |].
  rewrite Hv. simpl.
  apply elem_of_cons in Hy as [-> | Hy]; [congruence |].
  by rewrite (IH Hy Hr).
Qed.

Lemma free_cells_Ok_iff m l fs :
  free_cells m l = Ok fs ->
  fs `sublist_of` l /\ forall y, y ∈ fs <-> y ∈ l /\ mtx_get m y = Ok 0.
Proof.
  revert fs. induction l as [|x l IH]; intros fs H; simpl in H.
  - apply Ok_inj in H. subst. split; [done |]. intros y. split.
    + by intros ?%not_elem_of_nil.
    + by intros [?%not_elem_of_nil _].
  - bind_inv H v Hv. bind_inv H rest Hrest. apply Ok_inj in H. subst fs.
    destruct (IH _ Hrest) as [Hsub Hiff].
    destruct (Z.eqb_spec v 0) as [-> | Hne].
    + split; [by apply sublist_skip |]. intros y.
      rewrite !elem_of_cons, Hiff. split.
      * intros [-> | [? ?]]; auto.
      * intros [[-> | ?] ?]; auto.
    + split; [by apply sublist_cons |]. intros y.
      rewrite elem_of_cons, Hiff. split.
      * intros [? ?]. auto.
      * intros [[-> | ?] Hy]; [| done]. rewrite Hv in Hy. by injection Hy.
Qed.

(** ** Neighbours *)

(** X1. The neighbour query on a cell of the last row or of the last
    column of the grid raises [IndexError]: one of the adjacent coordinates
    has an index equal to the side of the grid. *)
Theorem neighbours_raise_on_last_row_or_column st cell :
  cell.1 + 1 = shape (mtx st) \/ cell.2 + 1 = shape (mtx st) ->
  neighbours st cell = Raise IndexError.
Proof.
  intros H. unfold neighbours.
  apply (free_cells_raise _ _ (cell.1 + 1, cell.2 + 1)).
  - unfold neighboursList. do 2 apply list_elem_of_further. apply list_elem_of_here.
  - apply mtx_get_out_of_range. simpl. lia.
Qed.

Lemma neighbours_raise_on_last_row_or_column_witness :
  ((9, 4).1 + 1 = shape (mtx sweep_after_first)
   \/ (9, 4).2 + 1 = shape (mtx sweep_after_first))
  /\ neighbours sweep_after_first (9, 4) = Raise IndexError.
Proof.
  assert (H : (9, 4).1 + 1 = shape (mtx sweep_after_first)
              \/ (9, 4).2 + 1 = shape (mtx sweep_after_first))
    by (left; reflexivity).
  split; [exact H |].
  exact (neighbours_raise_on_last_row_or_column sweep_after_first (9, 4) H).
Defined.

(** X2. Whenever the neighbour query returns, its result is the list of
    the adjacent coordinates that read 0 on the grid, in the order of
    [neighboursList]: at most 8 coordinates. *)
Theorem neighbours_are_the_free_adjacent st cell ne :
  neighbours st cell = Ok ne ->
  ne `sublist_of` neighboursList cell
  /\ (forall y, y ∈ ne <-> y ∈ neighboursList cell /\ mtx_get (mtx st) y = Ok 0)
  /\ (length ne <= 8)%nat.
Proof.
  intros H. destruct (free_cells_Ok_iff _ _ _ H) as [Hsub Hiff].
  split; [done |]. split; [done |].
  apply sublist_length in Hsub. by simpl in Hsub.
Qed.

Lemma neighbours_are_the_free_adjacent_witness :
  neighbours sweep_after_first (5, 5)
  = Ok [(5, 6); (6, 6); (4, 5); (6, 5); (4, 4); (5, 4); (6, 4)]
  /\ [(5, 6); (6, 6); (4, 5); (6, 5); (4, 4); (5, 4); (6, 4)]
       `sublist_of` neighboursList (5, 5)
  /\ (forall y, y ∈ [(5, 6); (6, 6); (4, 5); (6, 5); (4, 4); (5, 4); (6, 4)]
        <-> y ∈ neighboursList (5, 5) /\ mtx_get (mtx sweep_after_first) y = Ok 0)
  /\ (length [(5, 6); (6, 6); (4, 5); (6, 5); (4, 4); (5, 4); (6, 4)] <= 8)%nat.
Proof.
  assert (H : neighbours sweep_after_first (5, 5)
              = Ok [(5, 6); (6, 6); (4, 5); (6, 5); (4, 4); (5, 4); (6, 4)])
    by (vm_compute; reflexivity).
  split; [exact H |].
  exact (neighbours_are_the_free_adjacent sweep_after_first (5, 5) _ H).
Defined.

Lemma norm_index_in_range n i :
  - n <= i < n -> norm_index n i = Ok (if i <? 0 then i + n else i).
Proof.
  intros H. unfold norm_index.
  destruct (Z.ltb_spec i (- n)); [lia |].
  destruct (Z.leb_spec n i); [lia |]. done.
Qed.

Lemma mtx_get_negative_row m i j :
  0 <= i < shape m ->
  mtx_get m (i - shape m, j) = mtx_get m (i, j).
Proof.
  intros Hi. unfold mtx_get, resolve. simpl.
  rewrite (norm_index_in_range _ (i - shape m)), (norm_index_in_range _ i) by lia.
  destruct (Z.ltb_spec (i - shape m) 0); [| lia].
  destruct (Z.ltb_spec i 0); [lia |].
  by replace (i - shape m + shape m) with i by lia.
Qed.

Lemma on_grid_in_range n c :
  - n <= c.1 < n -> - n <= c.2 < n -> on_grid n c.
Proof.
  intros H1 H2. unfold on_grid, resolve.
  rewrite (norm_index_in_range n c.1 H1). simpl.
  by rewrite (norm_index_in_range n c.2 H2).
Qed.

Lemma free_cells_on_grid m l :
  Forall (on_grid (shape m)) l -> exists fs, free_cells m l = Ok fs.
Proof.
  induction l as [|x l IH]; intros Hl; [by eexists |].
  apply Forall_cons in Hl as [Hx Hl]. destruct (IH Hl) as [fs Hfs].
  simpl. unfold on_grid in Hx. unfold mtx_get.
  destruct (resolve (shape m) x) as [k | |]; [| done | done]. simpl.
  rewrite Hfs. simpl. by eexists.
Qed.

(** X3. On a cell of row 0 that is not in the first or last column the
    neighbour query returns, and it takes the adjacent coordinates of row
    -1 from the last row of the grid: (-1, j) is returned exactly when
    (side - 1, j) reads 0. *)
Theorem neighbours_wrap_at_row_zero st c :
  1 <= c <= shape (mtx st) - 2 ->
  exists ne,
    neighbours st (0, c) = Ok ne
    /\ forall j, c - 1 <= j <= c + 1 ->
         ((-1, j) ∈ ne <-> mtx_get (mtx st) (shape (mtx st) - 1, j) = Ok 0).
Proof.
  intros Hc.
  assert (Hgrid : Forall (on_grid (shape (mtx st))) (neighboursList (0, c))).
  { unfold neighboursList.
    repeat (apply Forall_cons; split; [apply on_grid_in_range; simpl; lia |]).
    apply Forall_nil_2. }
  destruct (free_cells_on_grid _ _ Hgrid) as [ne Hne].
  exists ne. split; [exact Hne |].
  destruct (free_cells_Ok_iff _ _ _ Hne) as [_ Hiff].
  intros j Hj. rewrite Hiff.
  replace (-1) with (shape (mtx st) - 1 - shape (mtx st)) by lia.
  rewrite mtx_get_negative_row by lia.
  split; [by intros [_ ?] |]. intros H. split; [| done].
  unfold neighboursList. simpl.
  replace (shape (mtx st) - 1 - shape (mtx st)) with (0 - 1) by lia.
  assert (j = c + 1 \/ j = c \/ j = c - 1) as [-> | [-> | ->]] by lia.
  - apply list_elem_of_here.
  - do 3 apply list_elem_of_further. apply list_elem_of_here.
  - do 5 apply list_elem_of_further. apply list_elem_of_here.
Qed.

Lemma neighbours_wrap_at_row_zero_witness :
  1 <= 4 <= shape (mtx sweep_after_first) - 2
  /\ exists ne,
       neighbours sweep_after_first (0, 4) = Ok ne
       /\ forall j, 4 - 1 <= j <= 4 + 1 ->
            ((-1, j) ∈ ne
             <-> mtx_get (mtx sweep_after_first)
                   (shape (mtx sweep_after_first) - 1, j) = Ok 0).
Proof.
  assert (H : 1 <= 4 <= shape (mtx sweep_after_first) - 2) by (simpl; lia).
  split; [exact H |].
  exact (neighbours_wrap_at_row_zero sweep_after_first 4 H).
Defined.

(** ** Killing a cell *)

Lemma list_remove_absent x l : x ∉ l -> list_remove x l = Raise ValueError.
Proof.
  induction l as [|y l IH]; intros Hx; [done |].
  apply not_elem_of_cons in Hx as [Hne Hx]. simpl.
  destruct (decide (y = x)); [congruence |]. by rewrite (IH Hx).
Qed.

(** X4. [terminate_cell] on a coordinate that is not in the pool raises
    the [ValueError] of [list.remove], before the grid is touched. *)
Theorem terminate_cell_not_in_pool cell step st :
  cell ∉ pool st -> terminate_cell cell step st = Raise ValueError.
Proof.
  intros H. unfold terminate_cell. by rewrite (list_remove_absent _ _ H).
Qed.

Lemma terminate_cell_not_in_pool_witness :
  ((0, 0) ∉ pool sweep_after_first)
  /\ terminate_cell (0, 0) 1 sweep_after_first = Raise ValueError.
Proof.
  assert (H : (0, 0) ∉ pool sweep_after_first).
  { simpl. intros [E | [E | E%not_elem_of_nil]%elem_of_cons]%elem_of_cons;
      [discriminate | discriminate | done]. }
  split; [exact H |].
  exact (terminate_cell_not_in_pool (0, 0) 1 sweep_after_first H).
Defined.

(** X5. [terminate_cell] on a coordinate of the pool that designates a
    grid position takes one occurrence of it out of the pool, makes the
    grid read 0 there, and leaves every other grid position, the ledger and
    the beneficial list as they are. *)
Theorem terminate_cell_in_pool cell step st :
  cell ∈ pool st -> on_grid (shape (mtx st)) cell ->
  exists st',
    terminate_cell cell step st = Ok st'
    /\ pool st ≡ₚ cell :: pool st'
    /\ mtx_get (mtx st') cell = Ok 0
    /\ (forall c, key_of (shape (mtx st)) c <> key_of (shape (mtx st)) cell ->
                  mtx_get (mtx st') c = mtx_get (mtx st) c)
    /\ mut_container st' = mut_container st
    /\ benefitial_mutation st' = benefitial_mutation st.
Proof.
  intros Hin Hgrid. unfold terminate_cell.
  destruct (list_remove_spec _ _ Hin) as (l' & -> & Hperm). cbn.
  unfold on_grid in Hgrid.
  destruct (resolve (shape (mtx st)) cell) as [k | |] eqn:Hk; [| done | done].
  destruct (mtx_set_resolved (mtx st) cell 0 k Hk) as [m Hm]. rewrite Hm. cbn.
  eexists. split; [done |]. cbn.
  destruct (mtx_set_Ok _ _ _ _ Hm) as (k0 & Hk0 & Hs & Hc).
  rewrite Hk in Hk0. apply Ok_inj in Hk0. subst k0. simpl in Hc.
  split; [done |].
  split.
  { unfold mtx_get. rewrite Hs, Hk. cbn. by rewrite Hc, lookup_delete_eq. }
  split; [| done].
  intros c Hc'. unfold mtx_get. rewrite Hs. unfold key_of in Hc'. rewrite Hk in Hc'.
  destruct (resolve (shape (mtx st)) c) as [kc | |]; cbn; [| done | done].
  by rewrite Hc, lookup_delete_ne.
Qed.

Lemma terminate_cell_in_pool_witness :
  (4, 6) ∈ pool sweep_after_first
  /\ on_grid (shape (mtx sweep_after_first)) (4, 6)
  /\ exists st',
       terminate_cell (4, 6) 1 sweep_after_first = Ok st'
       /\ pool sweep_after_first ≡ₚ (4, 6) :: pool st'
       /\ mtx_get (mtx st') (4, 6) = Ok 0
       /\ (forall c, key_of (shape (mtx sweep_after_first)) c
                     <> key_of (shape (mtx sweep_after_first)) (4, 6) ->
                     mtx_get (mtx st') c = mtx_get (mtx sweep_after_first) c)
       /\ mut_container st' = mut_container sweep_after_first
       /\ benefitial_mutation st' = benefitial_mutation sweep_after_first.
Proof.
  assert (H1 : (4, 6) ∈ pool sweep_after_first).
  { simpl. apply elem_of_cons. right. apply list_elem_of_singleton. reflexivity. }
  assert (H2 : on_grid (shape (mtx sweep_after_first)) (4, 6)) by reflexivity.
  split; [exact H1 |]. split; [exact H2 |].
  exact (terminate_cell_in_pool (4, 6) 1 sweep_after_first H1 H2).
Defined.

(** ** Draws *)

Lemma float_lt_true a b : float_lt a b = true -> (a < b)%Q.
Proof.
  unfold float_lt. destruct (Qcompare a b) eqn:E; [done | | done].
  intros _. by apply Qlt_alt.
Qed.

Lemma prng_random_range g : (0 <= (prng_random g).1)%Q /\ ((prng_random g).1 < 1)%Q.
Proof.
  unfold prng_random, py_next. cbn [fst].
  pose proof (Z.mod_pos_bound (py_draws g (py_pos g)) (2 ^ 53) eq_refl) as [H0 H1].
  unfold Qle, Qlt. cbn [Qnum Qden].
  change (Z.pos (2 ^ 53)) with (2 ^ 53). lia.
Qed.

Lemma never_below_zero g q :
  (q <= 0)%Q -> float_lt (prng_random g).1 q = false.
Proof.
  intros Hq. destruct (float_lt (prng_random g).1 q) eqn:E; [| done].
  apply float_lt_true in E. destruct (prng_random_range g) as [H0 _].
  exfalso. apply (Qlt_irrefl 0). eapply Qle_lt_trans; [exact H0 |].
  eapply Qlt_le_trans; [exact E | exact Hq].
Qed.

Lemma always_below_one g q :
  (1 <= q)%Q -> float_lt (prng_random g).1 q = true.
Proof.
  intros Hq. destruct (float_lt (prng_random g).1 q) eqn:E; [done |].
  apply float_lt_false in E. destruct (prng_random_range g) as [_ H1].
  exfalso. apply (Qlt_irrefl 1). eapply Qle_lt_trans; [exact Hq |].
  eapply Qle_lt_trans; [exact E | exact H1].
Qed.

(** ** Shuffling *)

Lemma swap_perm {A} (x : list A) i j : swap x i j ≡ₚ x.
Proof.
  unfold swap.
  destruct (x !! i) as [a|] eqn:Ea; [| done].
  destruct (x !! j) as [b|] eqn:Eb; [| done].
  destruct (decide (i = j)) as [-> | Hne].
  - assert (a = b) as -> by congruence.
    rewrite (list_insert_id x j b Eb). by rewrite (list_insert_id x j b Eb).
  - apply (Permutation_cons_inv (a := b)).
    assert (Hj : (<[i := b]> x) !! j = Some b)
      by (by rewrite list_lookup_insert_ne).
    rewrite (insert_swap_perm _ _ _ a Hj).
    by rewrite (insert_swap_perm _ _ _ b Ea).
Qed.

Lemma shuffle_from_perm {A} i (x : list A) g : (shuffle_from i x g).1 ≡ₚ x.
Proof.
  revert x g. induction i as [|i IH]; intros x g; [done |].
  change (shuffle_from (S i) x g)
    with (let '(j, g') := randbelow (S (S i)) g in shuffle_from i (swap x (S i) j) g').
  destruct (randbelow (S (S i)) g) as [j g1]. rewrite IH. apply swap_perm.
Qed.

Lemma shuffle_perm {A} (x : list A) g : (shuffle x g).1 ≡ₚ x.
Proof. apply shuffle_from_perm. Qed.

(** ** One generation *)

Lemma mutation_frame p cell ne step c pl place b st g c' st' g' :
  mutation p cell ne step c pl place b st g = Ok (c', st', g') ->
  pool st' = pool st /\ growth_plot_data st' = growth_plot_data st.
Proof.
  intros H. unfold mutation in H.
  destruct (prng_random g) as [u g1].
  destruct (float_lt u (mutation_rate p)).
  - bind_inv H m1 Hm1. cbn in H.
    bind_inv H c1 Hc1. bind_inv H e1 He1.
    bind_inv H sg Hsg. destruct sg as [st2 g2].
    assert (Hst2 : pool st2 = pool st /\ growth_plot_data st2 = growth_plot_data st).
    { destruct b.
      - bind_inv Hsg d Hd. apply Ok_inj in Hsg. by injection Hsg as <- <-.
      - destruct (prng_random g1) as [u' g1'].
        destruct (_ && _ && _).
        + bind_inv Hsg d Hd. apply Ok_inj in Hsg. by injection Hsg as <- <-.
        + apply Ok_inj in Hsg. by injection Hsg as <- <-. }
    bind_inv H c2 Hc2. bind_inv H e2 He2. cbn in H.
    bind_inv H m3 Hm3. apply Ok_inj in H. by injection H as <- <- <-.
  - bind_inv H c1 Hc1. bind_inv H m1 Hm1. apply Ok_inj in H. by injection H as <- <- <-.
Qed.

Lemma division_frame p cell b ne step c pl st g c' pl' st' g' :
  division p cell b ne step c pl st g = Ok (c', pl', st', g') ->
  pool st' = pool st /\ growth_plot_data st' = growth_plot_data st
  /\ exists place, place ∈ ne /\ pl' = pl ++ [place].
Proof.
  intros H. unfold division in H.
  destruct b; bind_inv H pg Hpg; destruct pg as [place g1];
    bind_inv H r Hr; destruct r as [[c1 st1] g2];
    apply Ok_inj in H; injection H as <- <- <- <-;
    destruct (mutation_frame _ _ _ _ _ _ _ _ _ _ _ _ _ Hr) as [? ?];
    (split; [done |]; split; [done |]; exists place;
     split; [by eapply prng_choice_Ok | done]).
Qed.

Lemma divide_attempt_frame p step c pl st g cell c' pl' st' g' :
  divide_attempt p step (c, pl, st, g) cell = Ok (c', pl', st', g') ->
  pool st' = pool st /\ growth_plot_data st' = growth_plot_data st
  /\ exists born, pl' = pl ++ born /\ (length born <= 1)%nat.
Proof.
  intros H. unfold divide_attempt in H.
  bind_inv H ne Hne. destruct ne as [|n ne].
  { apply Ok_inj in H. injection H as <- <- <- <-.
    split; [done |]. split; [done |]. exists [].
    split; [by rewrite app_nil_r | simpl; lia]. }
  bind_inv H v Hv.
  destruct (member v (benefitial_mutation st));
    destruct (prng_random g) as [u g1];
    (destruct (float_lt u _);
     [ destruct (division_frame _ _ _ _ _ _ _ _ _ _ _ _ _ H) as (? & ? & place & _ & ->);
       split; [done |]; split; [done |]; exists [place];
       split; [done | simpl; lia]
     | apply Ok_inj in H; injection H as <- <- <- <-;
       split; [done |]; split; [done |]; exists [];
       split; [by rewrite app_nil_r | simpl; lia] ]).
Qed.

Lemma division_pass_frame p step l c pl st g c' pl' st' g' :
  for_each (divide_attempt p step) l (c, pl, st, g) = Ok (c', pl', st', g') ->
  pool st' = pool st /\ growth_plot_data st' = growth_plot_data st
  /\ exists born, pl' = pl ++ born /\ (length born <= length l)%nat.
Proof.
  revert c pl st g. induction l as [|x l IH]; intros c pl st g H; simpl in H.
  - apply Ok_inj in H. injection H as <- <- <- <-.
    split; [done |]. split; [done |]. exists [].
    split; [by rewrite app_nil_r | simpl; lia].
  - bind_inv H s1 Hs1. destruct s1 as [[[c1 pl1] st1] g1].
    destruct (divide_attempt_frame _ _ _ _ _ _ _ _ _ _ _ Hs1)
      as (Hp1 & Hg1 & born1 & -> & Hl1).
    destruct (IH _ _ _ _ H) as (Hp2 & Hg2 & born2 & -> & Hl2).
    split; [congruence |]. split; [congruence |].
    exists (born1 ++ born2). rewrite app_assoc. split; [done |].
    rewrite length_app. simpl. lia.
Qed.

Lemma deathStep_count p step st g st' g' :
  deathStep p step st g = Ok (st', g') ->
  0 <= death_count p (length (pool st)) <= Z.of_nat (length (pool st))
  /\ Z.of_nat (length (pool st'))
     = Z.of_nat (length (pool st)) - death_count p (length (pool st))
  /\ growth_plot_data st' = growth_plot_data st.
Proof.
  intros H. unfold deathStep, prng_sample in H.
  set (k := death_count p (length (pool st))) in *.
  destruct (Z.ltb_spec k 0); [done |].
  destruct (Z.ltb_spec (Z.of_nat (length (pool st))) k); [done |].
  cbn [orb mbind result_bind] in H.
  destruct (sample_from_spec (Z.to_nat k) (pool st) g) as [Hlen _]; [lia |].
  destruct (sample_from (Z.to_nat k) (pool st) g) as [chosen g1]. simpl in Hlen.
  bind_inv H st1 Ht. apply Ok_inj in H. injection H as <- _.
  destruct (terminate_all_spec_Ok _ _ _ _ Ht) as (_ & _ & Hperm & _).
  pose proof (Permutation_length Hperm) as Hl. rewrite length_app, Hlen in Hl.
  split; [lia |]. split; [lia |].
  clear -Ht. revert st Ht. induction chosen as [|x l IH]; intros st Ht; simpl in Ht.
  - apply Ok_inj in Ht. by subst.
  - bind_inv Ht st2 H2. rewrite (IH _ Ht).
    unfold terminate_cell in H2. bind_inv H2 r Hr. bind_inv H2 m Hm.
    apply Ok_inj in H2. by subst st2.
Qed.

(** What a generation does to the pool and to the population record. *)
Lemma generation_pool p step c st g c' st' g' :
  generation p step c st g = Ok (c', st', g') ->
  exists born : list coord,
    (length born <= length (pool st))%nat
    /\ pool st' ⊆+ pool st ++ born
    /\ Z.of_nat (length (pool st'))
       = Z.of_nat (length (pool st) + length born)
         - death_count p (length (pool st) + length born)
    /\ 0 <= death_count p (length (pool st) + length born)
    /\ growth_plot_data st'
       = growth_plot_data st
           ++ [(length (pool st) + length born)%nat; length (pool st')].
Proof.
  intros H. unfold generation in H.
  pose proof (shuffle_perm (pool st) g) as Hsh.
  destruct (shuffle (pool st) g) as [sh g1]. simpl in Hsh.
  bind_inv H acc Hacc. destruct acc as [[[c1 tp] st1] g2].
  bind_inv H sg Hsg. destruct sg as [st2 g3].
  apply Ok_inj in H. injection H as _ <- _.
  destruct (division_pass_frame _ _ _ _ _ _ _ _ _ _ _ Hacc)
    as (Hp1 & Hg1 & born & Hborn & Hlen). simpl in Hp1, Hg1, Hborn, Hlen.
  subst tp.
  destruct (deathStep_spec_Ok _ _ _ _ _ _ Hsg) as (_ & _ & Hsub & _).
  destruct (deathStep_count _ _ _ _ _ _ Hsg) as (Hk & Hcount & Hgd).
  simpl in Hsub, Hk, Hcount, Hgd. rewrite Hp1, length_app in *.
  pose proof (Permutation_length Hsh) as Hshl.
  exists born. cbn [pool growth_plot_data set_growth_plot_data set_pool].
  rewrite <- Hshl.
  split; [lia |].
  split; [by rewrite <- Hsh |].
  split; [done |].
  split; [lia |].
  by rewrite Hgd, Hg1, <- app_assoc.
Qed.

(** X6. One generation: at most one cell is born per cell of the pool, the
    new pool is drawn from the old one and the newborn, its size is the
    size before death minus [floor(death_probability * size before
    death)], and the two sizes, before and after death, are appended to
    the population record. In particular the population at most doubles. *)
Theorem generation_population p step c st g c' st' g' :
  generation p step c st g = Ok (c', st', g') ->
  exists born : list coord,
    (length born <= length (pool st))%nat
    /\ pool st' ⊆+ pool st ++ born
    /\ Z.of_nat (length (pool st'))
       = Z.of_nat (length (pool st) + length born)
         - math_floor (death_probability p
                       * inject_Z (Z.of_nat (length (pool st) + length born)))%Q
    /\ growth_plot_data st'
       = growth_plot_data st
           ++ [(length (pool st) + length born)%nat; length (pool st')]
    /\ (length (pool st') <= 2 * length (pool st))%nat.
Proof.
  intros H.
  destruct (generation_pool _ _ _ _ _ _ _ _ H) as (born & Hb & Hsub & Hc & Hk & Hg).
  exists born. split; [done |]. split; [done |]. split; [exact Hc |].
  split; [done |]. lia.
Qed.

Lemma generation_population_witness :
  exists c' st' g' (born : list coord),
    generation sweep_bundle 1 3 sweep_after_first zero_generator = Ok (c', st', g')
    /\ (length born <= length (pool sweep_after_first))%nat
    /\ pool st' ⊆+ pool sweep_after_first ++ born
    /\ Z.of_nat (length (pool st'))
       = Z.of_nat (length (pool sweep_after_first) + length born)
         - math_floor (death_probability sweep_bundle
                       * inject_Z (Z.of_nat (length (pool sweep_after_first)
                                             + length born)))%Q
    /\ growth_plot_data st'
       = growth_plot_data sweep_after_first
           ++ [(length (pool sweep_after_first) + length born)%nat;
               length (pool st')]
    /\ (length (pool st') <= 2 * length (pool sweep_after_first))%nat.
Proof.
  destruct (generation sweep_bundle 1 3 sweep_after_first zero_generator)
    as [[[c' st'] g'] | |] eqn:E; [| vm_compute in E; discriminate..].
  destruct (generation_population _ _ _ _ _ _ _ _ E) as (born & H).
  by exists c', st', g', born.
Defined.

Lemma death_count_zero p n :
  (death_probability p <= 0)%Q -> death_count p n <= 0.
Proof.
  intros Hq. unfold death_count, math_floor.
  change 0 with (Qfloor (inject_Z 0)). apply Qfloor_resp_le.
  change (inject_Z 0) with 0%Q.
  rewrite <- (Qmult_0_l (inject_Z (Z.of_nat n))).
  apply Qmult_le_compat_r; [done |].
  change 0%Q with (inject_Z 0). rewrite <- Zle_Qle. lia.
Qed.

(** X7. Without death ([death_probability] 0) a generation keeps every
    cell of the pool and adds the newborn: the population does not
    decrease. *)
Theorem generation_without_death p step c st g c' st' g' :
  (death_probability p <= 0)%Q ->
  generation p step c st g = Ok (c', st', g') ->
  exists born : list coord,
    pool st' ≡ₚ pool st ++ born
    /\ (length (pool st) <= length (pool st'))%nat.
Proof.
  intros Hq H.
  destruct (generation_pool _ _ _ _ _ _ _ _ H) as (born & Hb & Hsub & Hc & Hk & Hg).
  pose proof (death_count_zero p (length (pool st) + length born) Hq) as Hz.
  assert (Hlen : length (pool st') = (length (pool st) + length born)%nat) by lia.
  exists born. split; [| lia].
  apply submseteq_length_Permutation; [done |]. rewrite length_app. lia.
Qed.

Lemma generation_without_death_witness :
  (death_probability sweep_bundle <= 0)%Q
  /\ exists c' st' g' (born : list coord),
       generation sweep_bundle 1 3 sweep_after_first zero_generator = Ok (c', st', g')
       /\ pool st' ≡ₚ pool sweep_after_first ++ born
       /\ (length (pool sweep_after_first) <= length (pool st'))%nat.
Proof.
  assert (Hq : (death_probability sweep_bundle <= 0)%Q) by (vm_compute; discriminate).
  split; [exact Hq |].
  destruct (generation sweep_bundle 1 3 sweep_after_first zero_generator)
    as [[[c' st'] g'] | |] eqn:E; [| vm_compute in E; discriminate..].
  destruct (generation_without_death _ _ _ _ _ _ _ _ Hq E) as (born & H).
  by exists c', st', g', born.
Defined.

Lemma divide_attempt_no_division p step c pl st g cell r :
  (division_probability p <= 0)%Q ->
  (advantageous_division_probability p <= 0)%Q ->
  divide_attempt p step (c, pl, st, g) cell = Ok r ->
  exists g', r = (c, pl, st, g').
Proof.
  intros Hd Ha H. unfold divide_attempt in H.
  bind_inv H ne Hne. destruct ne as [|n ne].
  { apply Ok_inj in H. eauto. }
  bind_inv H v Hv.
  pose proof (never_below_zero g _ Hd) as Hd'.
  pose proof (never_below_zero g _ Ha) as Ha'.
  destruct (prng_random g) as [u g1]. simpl in Hd', Ha'.
  destruct (member v (benefitial_mutation st)).
  - rewrite Ha' in H. apply Ok_inj in H. eauto.
  - rewrite Hd' in H. apply Ok_inj in H. eauto.
Qed.

(** X8. With both division probabilities 0 a generation divides no cell:
    the new pool is drawn from the old one (the population does not
    increase), and ledger, mutation counter and beneficial list are as
    before. *)
Theorem generation_without_division p step c st g c' st' g' :
  (division_probability p <= 0)%Q ->
  (advantageous_division_probability p <= 0)%Q ->
  generation p step c st g = Ok (c', st', g') ->
  pool st' ⊆+ pool st
  /\ c' = c
  /\ mut_container st' = mut_container st
  /\ benefitial_mutation st' = benefitial_mutation st.
Proof.
  intros Hd Ha H. unfold generation in H.
  pose proof (shuffle_perm (pool st) g) as Hsh.
  destruct (shuffle (pool st) g) as [sh g1]. simpl in Hsh.
  bind_inv H acc Hacc. destruct acc as [[[c1 tp] st1] g2].
  bind_inv H sg Hsg. destruct sg as [st2 g3].
  apply Ok_inj in H. injection H as <- <- _.
  assert (Hpass : c1 = c /\ tp = [] /\ st1 = set_pool st sh).
  { eapply (for_each_invariant
              (fun acc : Z * list coord * CancerSimulator * py_generator =>
                 acc.1.1.1 = c /\ acc.1.1.2 = [] /\ acc.1.2 = set_pool st sh))
      in Hacc; [exact Hacc | | done].
    intros [[[a b] s] g0] x r (Ea & Eb & Es) Hx. simpl in Ea, Eb, Es. subst.
    by destruct (divide_attempt_no_division _ _ _ _ _ _ _ _ Hd Ha Hx) as [g4 ->]. }
  destruct Hpass as (-> & -> & ->).
  destruct (deathStep_spec_Ok _ _ _ _ _ _ Hsg) as (Hmc & Hbm & Hsub & _).
  simpl in Hmc, Hbm, Hsub. rewrite app_nil_r in Hsub.
  cbn. split; [by rewrite <- Hsh |]. done.
Qed.

Lemma generation_without_division_witness :
  (division_probability
     {| matrix_size := 10; number_of_generations := 2;
        division_probability := 0; advantageous_division_probability := 0;
        death_probability := 1 # 2; fitness_advantage_death_probability := 0;
        mutation_rate := 1; advantageous_mutation_probability := 1;
        mutations_per_division := 1; time_of_advantageous_mutation := 0;
        number_of_clonal := 1; tumour_multiplicity := single |} <= 0)%Q
  /\ exists c' st' g',
       generation
         {| matrix_size := 10; number_of_generations := 2;
            division_probability := 0; advantageous_division_probability := 0;
            death_probability := 1 # 2; fitness_advantage_death_probability := 0;
            mutation_rate := 1; advantageous_mutation_probability := 1;
            mutations_per_division := 1; time_of_advantageous_mutation := 0;
            number_of_clonal := 1; tumour_multiplicity := single |}
         1 3 sweep_after_first zero_generator = Ok (c', st', g')
       /\ pool st' ⊆+ pool sweep_after_first
       /\ c' = 3
       /\ mut_container st' = mut_container sweep_after_first
       /\ benefitial_mutation st' = benefitial_mutation sweep_after_first.
Proof.
  set (p := {| matrix_size := 10; number_of_generations := 2;
        division_probability := 0; advantageous_division_probability := 0;
        death_probability := 1 # 2; fitness_advantage_death_probability := 0;
        mutation_rate := 1; advantageous_mutation_probability := 1;
        mutations_per_division := 1; time_of_advantageous_mutation := 0;
        number_of_clonal := 1; tumour_multiplicity := single |}).
  assert (Hd : (division_probability p <= 0)%Q) by (vm_compute; discriminate).
  assert (Ha : (advantageous_division_probability p <= 0)%Q)
    by (vm_compute; discriminate).
  split; [exact Hd |].
  destruct (generation p 1 3 sweep_after_first zero_generator)
    as [[[c' st'] g'] | |] eqn:E; [| vm_compute in E; discriminate..].
  pose proof (generation_without_division _ _ _ _ _ _ _ _ Hd Ha E) as H.
  by exists c', st', g'.
Defined.
